(** * The colour engine of the palette page (app.js)

    Palette extraction from canvas pixel data, colour-scheme generation in
    HSL and the WCAG contrast checker, embedded function by function.

    - JavaScript strings are [string]s (sequences of 8-bit code units).
    - Numbers that only ever hold integral values (results of [parseInt],
      [Math.round], [Number] on bucket keys) are [Z], wrapped in [JsInt]
      where NaN or an infinity can occur.
    - The Number type of the colour arithmetic is an interface, [JsNumber],
      with two instances.  [binary64] is IEEE double precision on
      [PrimFloat]: the Number type itself, and it evaluates.  [exact] is
      real arithmetic without rounding: statements that quantify over all
      colours and depend on the arithmetic are proved over it.
      [Math.pow], which ECMAScript leaves to the engine, is a parameter.
    - The two globals of the page are threaded as [AppState]; a call
      returns a [Completion], a value or a thrown error.
    - The DOM and the canvas are outside: [extractColors] starts from the
      pixel data that [getImageData] returned, [generateScheme] and
      [checkContrast] take the values of their form controls as arguments
      and return what they display. *)

From Stdlib Require Import ZArith QArith Qround List Bool Ascii String Lia.
From Stdlib Require Import Sorted.
From Stdlib Require Import Floats Uint63.
From Stdlib Require Import Reals Lra.
Import ListNotations.

Close Scope Q_scope.
Close Scope R_scope.
Local Open Scope string_scope.
Local Open Scope list_scope.
Local Open Scope Z_scope.

(** String concatenation, the [+] of JavaScript on strings. *)
Infix "+++" := String.append (right associativity, at level 60).

(** ** JavaScript substrate: strings and integral numbers *)

Module JS.

(** A completed call either returns a value or throws. *)
Inductive JsError : Type := TypeError.

Inductive Completion (A : Type) : Type :=
| Normal (a : A)
| Throw (e : JsError).
Arguments Normal {A} a.
Arguments Throw {A} e.

(** A Number known to be integral, NaN or infinite (the results of
    [Math.round], [parseInt] and [Number] on the strings met here). *)
Inductive JsInt : Type :=
| JInt (z : Z)
| JNaN
| JInf (negative : bool).

(** [s.slice(b, e)] for [0 <= b <= e]. *)
Definition slice (s : string) (b e : nat) : string :=
  substring b (e - b) s.

(** WhiteSpace and LineTerminator code units below 256. *)
Definition isWhiteSpace (c : ascii) : bool :=
  let n := Z.of_nat (nat_of_ascii c) in
  ((9 <=? n) && (n <=? 13)) || (n =? 32) || (n =? 160).

Fixpoint trimStart (s : string) : string :=
  match s with
  | String c s' => if isWhiteSpace c then trimStart s' else s
  | EmptyString => s
  end.

(** Value of a digit character in radixes up to 36. *)
Definition digitValue (c : ascii) : option Z :=
  let n := Z.of_nat (nat_of_ascii c) in
  if (48 <=? n) && (n <=? 57) then Some (n - 48)
  else if (97 <=? n) && (n <=? 122) then Some (n - 87)
  else if (65 <=? n) && (n <=? 90) then Some (n - 55)
  else None.

(** Longest prefix of radix digits; [None] while no digit has been read. *)
Fixpoint parseDigits (radix : Z) (s : string) (acc : option Z) : option Z :=
  match s with
  | String c s' =>
      match digitValue c with
      | Some d =>
          if d <? radix
          then parseDigits radix s'
                 (Some (radix * match acc with Some a => a | None => 0 end + d))
          else acc
      | None => acc
      end
  | EmptyString => acc
  end.

Definition stripSign (s : string) : Z * string :=
  match s with
  | String "-" s' => (-1, s')
  | String "+" s' => (1, s')
  | _ => (1, s)
  end.

Definition stripHexPrefix (s : string) : string :=
  match s with
  | String "0" (String "x" s') => s'
  | String "0" (String "X" s') => s'
  | _ => s
  end.

(** [parseInt(s, radix)]: [None] is NaN.  A result of -0 is read as 0. *)
Definition parseInt (s : string) (radix : Z) : option Z :=
  let '(sign, s1) := stripSign (trimStart s) in
  let s2 := if radix =? 16 then stripHexPrefix s1 else s1 in
  option_map (Z.mul sign) (parseDigits radix s2 None).

Definition digitChar (d : Z) : ascii :=
  ascii_of_nat (Z.to_nat (if d <? 10 then 48 + d else 87 + d)).

(** Digits of [n >= 0], most significant first, prepended to [acc]. *)
Fixpoint toDigits (fuel : nat) (radix n : Z) (acc : string) : string :=
  match fuel with
  | O => acc
  | S fuel' =>
      let acc' := String (digitChar (n mod radix)) acc in
      if n <? radix then acc' else toDigits fuel' radix (n / radix) acc'
  end.

Definition natToString (n radix : Z) : string :=
  toDigits (S (Z.to_nat (Z.log2 n))) radix n "".

(** [x.toString(radix)] on an integral Number. *)
Definition toString (x : JsInt) (radix : Z) : string :=
  match x with
  | JInt z => if z <? 0 then "-" +++ natToString (- z) radix
              else natToString z radix
  | JNaN => "NaN"
  | JInf false => "Infinity"
  | JInf true => "-Infinity"
  end.

Fixpoint repeatChar (c : ascii) (n : nat) : string :=
  match n with
  | O => ""
  | S n' => String c (repeatChar c n')
  end.

(** [s.padStart(n, c)] with a one-character filler. *)
Definition padStart (s : string) (n : nat) (c : ascii) : string :=
  repeatChar c (n - String.length s) +++ s.

(** [s.split(sep)] with a one-character separator. *)
Fixpoint split (sep : ascii) (s : string) : list string :=
  match s with
  | EmptyString => [""]
  | String c s' =>
      if Ascii.eqb c sep then "" :: split sep s'
      else match split sep s' with
           | h :: t => String c h :: t
           | [] => [String c ""]
           end
  end.

Definition isDecimalDigit (c : ascii) : bool :=
  let n := Z.of_nat (nat_of_ascii c) in (48 <=? n) && (n <=? 57).

Fixpoint allDecimal (s : string) : bool :=
  match s with
  | EmptyString => true
  | String c s' => isDecimalDigit c && allDecimal s'
  end.

(** [Number(s)] on the strings that [split] hands over from a bucket key:
    a decimal integer literal with an optional sign, or text that is no
    numeric literal (such as "NaN"), which converts to NaN.  Fractions,
    exponents, other radixes, "Infinity" and surrounding white space are
    not covered. *)
Definition Number (s : string) : JsInt :=
  match s with
  | EmptyString => JInt 0
  | _ =>
      let '(sign, digits) := stripSign s in
      match digits with
      | EmptyString => JNaN
      | _ => if allDecimal digits
             then match parseDigits 10 digits None with
                  | Some z => JInt (sign * z)
                  | None => JNaN
                  end
             else JNaN
      end
  end.

(** [Math.round] on an exactly known rational: nearest integer, ties up. *)
Definition Math_round_Q (q : Q) : Z := Qfloor (q + (1 # 2))%Q.

(** A stable sort by a comparator in the style of [Array.prototype.sort]:
    [cmp a b > 0] moves [a] behind [b]; other pairs keep their order. *)
Fixpoint sortInsert {A : Type} (cmp : A -> A -> Z) (x : A) (l : list A) : list A :=
  match l with
  | [] => [x]
  | y :: l' => if 0 <? cmp x y then y :: sortInsert cmp x l' else x :: l
  end.

Fixpoint Array_sort {A : Type} (cmp : A -> A -> Z) (l : list A) : list A :=
  match l with
  | [] => []
  | x :: l' => sortInsert cmp x (Array_sort cmp l')
  end.

End JS.

Import JS.

(** ** Palette extractor *)

(** The pixel data is the [Uint8ClampedArray] that [getImageData] returns:
    a list of bytes, four per pixel.  Statements that depend on the values
    being bytes say so. *)

(** [rgbToHex(r, g, b)]: nothing clamps or validates the channels. *)
Definition rgbToHex (r g b : JsInt) : string :=
  "#" +++ String.concat ""
           (map (fun x =>
                   let hex := toString x 16 in
                   if (String.length hex =? 1)%nat then "0" +++ hex else hex)
                [r; g; b]).

(** [Math.round(v / 16) * 16] on an element read from the pixel array;
    a read past the end is [undefined] and quantizes to NaN. *)
Definition quantize (v : option Z) : JsInt :=
  match v with
  | Some x => JInt (Math_round_Q (x # 16) * 16)
  | None => JNaN
  end.

(** The template literal that builds a bucket key. *)
Definition bucketKey (qr qg qb : JsInt) : string :=
  toString qr 10 +++ "," +++ toString qg 10 +++ "," +++ toString qb 10.

(** [colorMap]: an object used as a map from key to count.  Its keys are
    never array indices, so [Object.entries] lists them in insertion
    order: the model is the association list in that order. *)
Definition ColorMap : Type := list (string * Z).

(** [colorMap[key] = (colorMap[key] || 0) + 1]. *)
Fixpoint bump (key : string) (colorMap : ColorMap) : ColorMap :=
  match colorMap with
  | [] => [(key, 1)]
  | (k, c) :: rest =>
      if String.eqb k key then (k, c + 1) :: rest
      else (k, c) :: bump key rest
  end.

(** [alpha < 128], false when [alpha] is [undefined]. *)
Definition isTransparent (alpha : option Z) : bool :=
  match alpha with
  | Some a => a <? 128
  | None => false
  end.

(** One iteration of the sampling loop at byte offset [i]. *)
Definition sampleAt (imageData : list Z) (i : nat) (colorMap : ColorMap) : ColorMap :=
  let r := nth_error imageData i in
  let g := nth_error imageData (i + 1) in
  let b := nth_error imageData (i + 2) in
  let alpha := nth_error imageData (i + 3) in
  if isTransparent alpha then colorMap
  else bump (bucketKey (quantize r) (quantize g) (quantize b)) colorMap.

(** [for (let i = 0; i < imageData.length; i += 40)], run from offset [i]. *)
Fixpoint sampleLoop (fuel : nat) (imageData : list Z) (i : nat)
    (colorMap : ColorMap) : ColorMap :=
  match fuel with
  | O => colorMap
  | S fuel' =>
      if (i <? List.length imageData)%nat
      then sampleLoop fuel' imageData (i + 40) (sampleAt imageData i colorMap)
      else colorMap
  end.

Definition buildColorMap (imageData : list Z) : ColorMap :=
  sampleLoop (List.length imageData) imageData 0 [].

Record Bucket : Type := mkBucket {
  bucket_r : JsInt;
  bucket_g : JsInt;
  bucket_b : JsInt;
  bucket_count : Z
}.

(** [const [r, g, b] = color.split(',').map(Number)]; a key always has
    three parts, a missing part would be [undefined]. *)
Definition bucketOfEntry (entry : string * Z) : Bucket :=
  match map Number (split "," (fst entry)) with
  | r :: g :: b :: _ => mkBucket r g b (snd entry)
  | [r; g] => mkBucket r g JNaN (snd entry)
  | [r] => mkBucket r JNaN JNaN (snd entry)
  | [] => mkBucket JNaN JNaN JNaN (snd entry)
  end.

(** The comparator [(a, b) => b[1] - a[1]]. *)
Definition byCountDesc (a b : string * Z) : Z := snd b - snd a.

Definition sortedEntries (imageData : list Z) : list (string * Z) :=
  Array_sort byCountDesc (buildColorMap imageData).

Definition sortedColors (imageData : list Z) : list Bucket :=
  map bucketOfEntry (sortedEntries imageData).

Record PaletteColor : Type := mkPaletteColor {
  pc_hex : string;
  pc_rgb : string
}.

Definition paletteColor (c : Bucket) : PaletteColor :=
  mkPaletteColor
    (rgbToHex (bucket_r c) (bucket_g c) (bucket_b c))
    ("rgb(" +++ toString (bucket_r c) 10 +++ ", " +++ toString (bucket_g c) 10
            +++ ", " +++ toString (bucket_b c) 10 +++ ")").

Record SchemeEntry : Type := mkSchemeEntry {
  se_hex : string;
  se_name : string
}.

(** The two globals of the page. *)
Record AppState : Type := mkAppState {
  extractedColors : list PaletteColor;
  currentScheme : list SchemeEntry
}.

(** What [extractColors] hands to [displayDominantColor] and
    [displayColorGrid]. *)
Record PaletteView : Type := mkPaletteView {
  view_dominant : string;
  view_grid : list PaletteColor
}.

(** [extractColors], from the pixel data that [getImageData] returned.
    [sortedColors[0]] is [undefined] on an empty list and reading its
    property [r] throws before [extractedColors] is assigned. *)
Definition extractColors (st : AppState) (imageData : list Z)
    : Completion PaletteView * AppState :=
  let sorted := sortedColors imageData in
  match sorted with
  | [] => (Throw TypeError, st)
  | dominant :: _ =>
      let dominantHex :=
        rgbToHex (bucket_r dominant) (bucket_g dominant) (bucket_b dominant) in
      let top := map paletteColor (firstn 10 sorted) in
      (Normal (mkPaletteView dominantHex top),
       mkAppState top (currentScheme st))
  end.

(** ** The Number type *)

(** The operations on Numbers that the colour functions use.  [jsNaN] is
    what [parseInt] failures and a [switch] that matches no case produce. *)
Class JsNumber (N : Type) : Type := {
  ofZ : Z -> N;
  jsNaN : N;
  nadd : N -> N -> N;
  nsub : N -> N -> N;
  nmul : N -> N -> N;
  ndiv : N -> N -> N;
  nrem : N -> N -> N;
  Math_max : N -> N -> N;
  Math_min : N -> N -> N;
  nlt : N -> N -> bool;
  nle : N -> N -> bool;
  strictEq : N -> N -> bool;
  Math_round : N -> JsInt
}.

Declare Scope js_scope.
Delimit Scope js_scope with js.
Infix "+" := nadd : js_scope.
Infix "-" := nsub : js_scope.
Infix "*" := nmul : js_scope.
Infix "/" := ndiv : js_scope.
Infix "mod" := nrem : js_scope.
Infix "<?" := nlt : js_scope.
Infix "<=?" := nle : js_scope.
Infix "===" := strictEq (at level 70, no associativity) : js_scope.

(** The decimal literal [p/q] (as in [0.05 = 5/100]): both integers are
    exact and the one division rounds to the nearest Number, which is how
    a literal is read. *)
Definition dec {N : Type} `{JsNumber N} (p q : Z) : N := (ofZ p / ofZ q)%js.

(** *** IEEE binary64, the Number type itself *)

Module Binary64.

Local Open Scope float_scope.

(** Exact for [|z| <= 2^53]. *)
Definition ofZ (z : Z) : float :=
  if (z <? 0)%Z then - PrimFloat.of_uint63 (Uint63.of_Z (- z))
  else PrimFloat.of_uint63 (Uint63.of_Z z).

(** [Math.max] and [Math.min] of two arguments.  Comparisons with NaN are
    false, so NaN falls through to the last branch; of two equal
    arguments, which differ only when they are zeros of opposite signs,
    +0 is the larger. *)
Definition Math_max (a b : float) : float :=
  if a <? b then b
  else if b <? a then a
  else if a =? b then (if PrimFloat.get_sign a then b else a)
  else nan.

Definition Math_min (a b : float) : float :=
  if a <? b then a
  else if b <? a then b
  else if a =? b then (if PrimFloat.get_sign a then a else b)
  else nan.

(** Integer mantissa and biased exponent: for finite nonzero [x],
    [|x| = m * 2^(e - 2154)] with [2^52 <= m < 2^53]; for zeros,
    infinities and NaN, [m = 0]. *)
Definition mantExp (x : float) : int * int :=
  let (f, e) := PrimFloat.frshiftexp (PrimFloat.abs x) in
  (PrimFloat.normfr_mantissa f, e).

(** [(r * 2^d) mod my], one doubling at a time. *)
Fixpoint remLoop (fuel : nat) (d r my : int) : int :=
  if (d =? 0)%uint63 then r
  else match fuel with
       | O => r
       | S fuel' => remLoop fuel' (d - 1)%uint63 ((r << 1) mod my)%uint63 my
       end.

(** The [%] operator: the exact remainder of the truncating division,
    with the sign of the dividend. *)
Definition rem (x y : float) : float :=
  let '(mx, ex) := mantExp x in
  let '(my, ey) := mantExp y in
  if (mx =? 0)%uint63 || (my =? 0)%uint63 then
    if PrimFloat.is_nan x || PrimFloat.is_nan y || PrimFloat.is_infinity x
       || PrimFloat.is_zero y
    then nan else x
  else if (ex <? ey)%uint63 then x
  else
    let r := remLoop 2200 (ex - ey)%uint63 (mx mod my)%uint63 my in
    let m := PrimFloat.ldshiftexp (PrimFloat.of_uint63 r) (ey - 53)%uint63 in
    if x <? 0 then - m else m.

(** Magnitude of [Math.round x] for finite [x] with [0.5 <= |x| < 2^53],
    on the mantissa [m] and exponent [e] of [x]: ties go towards
    +infinity, which is up for positive and down for negative [x]. *)
Definition roundMantissa (negative : bool) (m e : int) : int :=
  let sh := (2154 - e)%uint63 in
  let half := (1 << (sh - 1))%uint63 in
  if negative then ((m + half - 1) >> sh)%uint63
  else ((m + half) >> sh)%uint63.

(** [Math.round]. *)
Definition Math_round (x : float) : JsInt :=
  let '(m, e) := mantExp x in
  if (m =? 0)%uint63 then
    if PrimFloat.is_nan x then JNaN
    else if PrimFloat.is_infinity x then JInf (x <? 0)
    else JInt 0
  else if (e <? 2101)%uint63 then JInt 0
  else if (2154 <=? e)%uint63 then
    let v := (Uint63.to_Z m * 2 ^ (Uint63.to_Z e - 2154))%Z in
    JInt (if x <? 0 then (- v)%Z else v)
  else if x <? 0 then JInt (- Uint63.to_Z (roundMantissa true m e))
  else JInt (Uint63.to_Z (roundMantissa false m e)).

End Binary64.

#[export] Instance binary64 : JsNumber float := {|
  ofZ := Binary64.ofZ;
  jsNaN := PrimFloat.nan;
  nadd := PrimFloat.add;
  nsub := PrimFloat.sub;
  nmul := PrimFloat.mul;
  ndiv := PrimFloat.div;
  nrem := Binary64.rem;
  Math_max := Binary64.Math_max;
  Math_min := Binary64.Math_min;
  nlt := PrimFloat.ltb;
  nle := PrimFloat.leb;
  strictEq := PrimFloat.eqb;
  Math_round := Binary64.Math_round
|}.

(** *** Exact real arithmetic, the reading without rounding *)

Module Exact.

Local Open Scope R_scope.

Definition ltb (x y : R) : bool := if Rlt_dec x y then true else false.
Definition leb (x y : R) : bool := if Rle_dec x y then true else false.
Definition eqb (x y : R) : bool := if Req_dec_T x y then true else false.

(** Truncation towards zero. *)
Definition trunc (x : R) : Z := if Rle_dec 0 x then Zfloor x else Zceil x.

Definition rem (x y : R) : R := x - y * IZR (trunc (x / y)).

Definition Math_round (x : R) : JsInt := JInt (Zfloor (x + / 2)).

End Exact.

(** The reals have no NaN: [jsNaN] is a placeholder, and statements over
    this instance are about inputs on which no NaN arises. *)
#[export] Instance exact : JsNumber R := {|
  ofZ := IZR;
  jsNaN := 0%R;
  nadd := Rplus;
  nsub := Rminus;
  nmul := Rmult;
  ndiv := Rdiv;
  nrem := Exact.rem;
  Math_max := Rmax;
  Math_min := Rmin;
  nlt := Exact.ltb;
  nle := Exact.leb;
  strictEq := Exact.eqb;
  Math_round := Exact.Math_round
|}.

(** ** Colour-space conversions, scheme generator, contrast checker *)

Section ColorMath.

Context {N : Type} `{JsNumber N}.

(** [Math.pow], left to the engine by ECMAScript. *)
Variable Math_pow : N -> N -> N.

Local Open Scope js_scope.

(** [parseInt(hex.slice(b, e), 16)] as a Number: the inline parser of
    [getContrastColor], [hexToHsl] and [getLuminance]. *)
Definition hexChannel (hex : string) (b e : nat) : N :=
  match parseInt (slice hex b e) 16 with
  | Some z => ofZ z
  | None => jsNaN
  end.

Record HSL : Type := mkHSL { hsl_h : N; hsl_s : N; hsl_l : N }.

(** The body of [hexToHsl] below its three parsing lines. *)
Definition hslOfRgb (r g b : N) : HSL :=
  let max := Math_max (Math_max r g) b in
  let min := Math_min (Math_min r g) b in
  let l := (max + min) / ofZ 2 in
  if max === min then mkHSL (ofZ 0 * ofZ 360) (ofZ 0 * ofZ 100) (l * ofZ 100)
  else
    let d := max - min in
    let s := if dec 5 10 <? l then d / (ofZ 2 - max - min) else d / (max + min) in
    let h :=
      if max === r then ((g - b) / d + (if g <? b then ofZ 6 else ofZ 0)) / ofZ 6
      else if max === g then ((b - r) / d + ofZ 2) / ofZ 6
      else if max === b then ((r - g) / d + ofZ 4) / ofZ 6
      else jsNaN in
    mkHSL (h * ofZ 360) (s * ofZ 100) (l * ofZ 100).

Definition hexToHsl (hex : string) : HSL :=
  let r := hexChannel hex 1 3 / ofZ 255 in
  let g := hexChannel hex 3 5 / ofZ 255 in
  let b := hexChannel hex 5 7 / ofZ 255 in
  hslOfRgb r g b.

(** The constant [color] inside the closure [f] of [hslToHex]; [l] and
    [a] are the closure's captured variables. *)
Definition hslColor (h l a n : N) : N :=
  let k := (n + h / ofZ 30) mod ofZ 12 in
  l - a * Math_max (Math_min (Math_min (k - ofZ 3) (ofZ 9 - k)) (ofZ 1)) (ofZ (-1)).

(** [Math.round(255 * color)], the number that [f] renders. *)
Definition hslChannel (h l a n : N) : JsInt :=
  Math_round (ofZ 255 * hslColor h l a n).

Definition hslToHex (h s l : N) : string :=
  let s := s / ofZ 100 in
  let l := l / ofZ 100 in
  let a := s * Math_min l (ofZ 1 - l) in
  let f := fun n => padStart (toString (hslChannel h l a n) 16) 2 "0" in
  "#" +++ f (ofZ 0) +++ f (ofZ 8) +++ f (ofZ 4).

(** The scheme that [generateScheme] assigns to [currentScheme]: empty,
    then overwritten by the case of the [switch] that matches, if any. *)
Definition schemeOf (hex type : string) : list SchemeEntry :=
  let hsl := hexToHsl hex in
  let h := hsl_h hsl in
  let s := hsl_s hsl in
  let l := hsl_l hsl in
  if String.eqb type "complementary" then
    [ mkSchemeEntry hex "Base";
      mkSchemeEntry (hslToHex ((h + ofZ 180) mod ofZ 360) s l) "Complementary" ]
  else if String.eqb type "analogous" then
    [ mkSchemeEntry (hslToHex ((h - ofZ 30 + ofZ 360) mod ofZ 360) s l) "Analogous 1";
      mkSchemeEntry (hslToHex ((h - ofZ 15 + ofZ 360) mod ofZ 360) s l) "Analogous 2";
      mkSchemeEntry hex "Base";
      mkSchemeEntry (hslToHex ((h + ofZ 15) mod ofZ 360) s l) "Analogous 3";
      mkSchemeEntry (hslToHex ((h + ofZ 30) mod ofZ 360) s l) "Analogous 4" ]
  else if String.eqb type "triadic" then
    [ mkSchemeEntry hex "Primary";
      mkSchemeEntry (hslToHex ((h + ofZ 120) mod ofZ 360) s l) "Secondary";
      mkSchemeEntry (hslToHex ((h + ofZ 240) mod ofZ 360) s l) "Tertiary" ]
  else if String.eqb type "tetradic" then
    [ mkSchemeEntry hex "Primary";
      mkSchemeEntry (hslToHex ((h + ofZ 90) mod ofZ 360) s l) "Secondary";
      mkSchemeEntry (hslToHex ((h + ofZ 180) mod ofZ 360) s l) "Tertiary";
      mkSchemeEntry (hslToHex ((h + ofZ 270) mod ofZ 360) s l) "Quaternary" ]
  else if String.eqb type "monochromatic" then
    [ mkSchemeEntry (hslToHex h s (ofZ 20)) "Dark";
      mkSchemeEntry (hslToHex h s (ofZ 40)) "Medium Dark";
      mkSchemeEntry hex "Base";
      mkSchemeEntry (hslToHex h s (ofZ 70)) "Medium Light";
      mkSchemeEntry (hslToHex h s (ofZ 90)) "Light" ]
  else if String.eqb type "split-complementary" then
    [ mkSchemeEntry hex "Base";
      mkSchemeEntry (hslToHex ((h + ofZ 150) mod ofZ 360) s l) "Split 1";
      mkSchemeEntry (hslToHex ((h + ofZ 210) mod ofZ 360) s l) "Split 2" ]
  else [].

(** [generateScheme], with the values of the two form controls as
    arguments; the result is the list handed to [displayScheme]. *)
Definition generateScheme (st : AppState) (hex type : string)
    : Completion (list SchemeEntry) * AppState :=
  let scheme := schemeOf hex type in
  (Normal scheme, mkAppState (extractedColors st) scheme).

(** The sRGB-to-linear map applied to each channel in [getLuminance]. *)
Definition linearize (v : N) : N :=
  if v <=? dec 3928 100000 then v / dec 1292 100
  else Math_pow ((v + dec 55 1000) / dec 1055 1000) (dec 24 10).

Definition getLuminance (hex : string) : N :=
  let r := hexChannel hex 1 3 / ofZ 255 in
  let g := hexChannel hex 3 5 / ofZ 255 in
  let b := hexChannel hex 5 7 / ofZ 255 in
  match map linearize [r; g; b] with
  | [a0; a1; a2] => a0 * dec 2126 10000 + a1 * dec 7152 10000 + a2 * dec 722 10000
  | _ => jsNaN
  end.

(** What [checkContrast] computes and shows: the ratio and, for each of
    the four metrics, whether it writes PASS ([true]) or FAIL. *)
Record ContrastResult : Type := mkContrastResult {
  cr_ratio : N;
  cr_aaNormal : bool;
  cr_aaLarge : bool;
  cr_aaaNormal : bool;
  cr_aaaLarge : bool
}.

Definition checkContrast (foreground background : string) : ContrastResult :=
  let fgLum := getLuminance foreground in
  let bgLum := getLuminance background in
  let ratio :=
    (Math_max fgLum bgLum + dec 5 100) / (Math_min fgLum bgLum + dec 5 100) in
  mkContrastResult ratio
    (dec 45 10 <=? ratio) (ofZ 3 <=? ratio) (ofZ 7 <=? ratio) (dec 45 10 <=? ratio).

End ColorMath.

Arguments HSL N : clear implicits.
Arguments ContrastResult N : clear implicits.


(** *** Number systems that round *)

(** The error allowed to one arithmetic operation whose exact result is
    at most 1000 in magnitude: 10^-12.  IEEE binary64 rounds such a result
    to within 2^-44. *)
Definition accuracy : R := (/ 1000000000000)%R.

(** A Number system whose finite Numbers denote real numbers, whose
    arithmetic returns the exact result up to [accuracy], and whose
    comparisons, [Math.max], [Math.min], [Math.round] and remainder by 12
    are exact on what the Numbers denote. *)
Class Accurate (N : Type) `{JsNumber N} : Type := {
  (** The real number that a finite Number denotes; [None] for NaN and
      the infinities. *)
  val : N -> option R;
  val_ofZ : forall z : Z, -1000 <= z <= 1000 -> val (ofZ z) = Some (IZR z);
  val_add : forall (a b : N) (x y : R),
      val a = Some x -> val b = Some y -> (-1000 <= x + y <= 1000)%R ->
      exists r, val (a + b)%js = Some r
                /\ (- accuracy <= r - (x + y) <= accuracy)%R;
  val_sub : forall (a b : N) (x y : R),
      val a = Some x -> val b = Some y -> (-1000 <= x - y <= 1000)%R ->
      exists r, val (a - b)%js = Some r
                /\ (- accuracy <= r - (x - y) <= accuracy)%R;
  val_mul : forall (a b : N) (x y : R),
      val a = Some x -> val b = Some y -> (-1000 <= x * y <= 1000)%R ->
      exists r, val (a * b)%js = Some r
                /\ (- accuracy <= r - x * y <= accuracy)%R;
  val_div : forall (a b : N) (x y : R),
      val a = Some x -> val b = Some y -> y <> 0%R ->
      (-1000 <= x / y <= 1000)%R ->
      exists r, val (a / b)%js = Some r
                /\ (- accuracy <= r - x / y <= accuracy)%R;
  val_rem : forall (a : N) (x : R),
      val a = Some x -> (-12 < x < 24)%R ->
      val (a mod ofZ 12)%js = Some (Exact.rem x 12);
  val_max : forall (a b : N) (x y : R),
      val a = Some x -> val b = Some y -> val (Math_max a b) = Some (Rmax x y);
  val_min : forall (a b : N) (x y : R),
      val a = Some x -> val b = Some y -> val (Math_min a b) = Some (Rmin x y);
  val_lt : forall (a b : N) (x y : R),
      val a = Some x -> val b = Some y -> (a <? b)%js = Exact.ltb x y;
  val_eq : forall (a b : N) (x y : R),
      val a = Some x -> val b = Some y -> (a === b)%js = Exact.eqb x y;
  val_round : forall (a : N) (x : R),
      val a = Some x -> (-1 <= x <= 1000)%R ->
      Math_round a = JInt (Zfloor (x + / 2))
}.

(** The Number [a] denotes a real number within [e] of [x]. *)
Definition approx {N : Type} `{Accurate N} (a : N) (x e : R) : Prop :=
  exists r, val a = Some r /\ (x - e <= r <= x + e)%R.

(** The factor of [hslToHex] that multiplies the amplitude, as a function
    of the position [z = n + h / 30] on the hue circle. *)
Definition hueFactor (z : R) : R :=
  Rmax (Rmin (Rmin (Exact.rem z 12 - 3) (9 - Exact.rem z 12)) 1) (-1).

(** ** Vocabulary of the specification *)

Definition isHexDigit (c : ascii) : bool :=
  match digitValue c with
  | Some d => d <? 16
  | None => false
  end.

Fixpoint allHexDigits (s : string) : bool :=
  match s with
  | EmptyString => true
  | String c s' => isHexDigit c && allHexDigits s'
  end.

(** Six hex digits, either case, without the leading [#]. *)
Definition isSixHex (s : string) : bool :=
  (String.length s =? 6)%nat && allHexDigits s.

(** The external form of a Color: [#] and six hex digits. *)
Definition isHexColor (s : string) : bool :=
  match s with
  | String "#" rest => isSixHex rest
  | _ => false
  end.

(** "A 6-hex-digit pattern (with or without leading [#])". *)
Definition matchesHexPattern (s : string) : bool :=
  isHexColor s || isSixHex s.

Definition pairValue (c1 c2 : ascii) : option Z :=
  match digitValue c1, digitValue c2 with
  | Some d1, Some d2 => Some (16 * d1 + d2)
  | _, _ => None
  end.

(** The Color that six hex digits denote: one byte per pair of digits. *)
Definition colorOfSixHex (s : string) : option (Z * Z * Z) :=
  match s with
  | String c1 (String c2 (String c3 (String c4 (String c5 (String c6 ""))))) =>
      match pairValue c1 c2, pairValue c3 c4, pairValue c5 c6 with
      | Some r, Some g, Some b => Some (r, g, b)
      | _, _, _ => None
      end
  | _ => None
  end.

(** The Color denoted by a string of the hex pattern, [#] optional. *)
Definition colorOfHex (s : string) : option (Z * Z * Z) :=
  match s with
  | String "#" rest => colorOfSixHex rest
  | _ => colorOfSixHex s
  end.

(** The three [parseInt] calls on the slices [1..3], [3..5] and [5..7]
    that every consumer of a hex string makes: this is all the parsing
    there is. *)
Definition parseChannels (hex : string) : option Z * option Z * option Z :=
  (parseInt (slice hex 1 3) 16, parseInt (slice hex 3 5) 16,
   parseInt (slice hex 5 7) 16).

Definition lowerChar (c : ascii) : ascii :=
  let n := nat_of_ascii c in
  if ((65 <=? n) && (n <=? 90))%nat then ascii_of_nat (n + 32) else c.

(** [toLowerCase] on strings of ASCII characters. *)
Fixpoint toLowerCase (s : string) : string :=
  match s with
  | EmptyString => EmptyString
  | String c s' => String (lowerChar c) (toLowerCase s')
  end.

(** The text that [rgbToHex] renders for one channel. *)
Definition channelHex (x : JsInt) : string :=
  let hex := toString x 16 in
  if (String.length hex =? 1)%nat then "0" +++ hex else hex.

Definition inByte (v : Z) : Prop := 0 <= v <= 255.

Definition byteRange : list Z := map Z.of_nat (seq 0 256).

Definition allAscii : list ascii := map ascii_of_nat (seq 0 256).

Definition hexDigits : list ascii := filter isHexDigit allAscii.

(** Reading two hex digits gives the byte they denote, and rendering that
    byte gives the two digits back in lower case. *)
Definition pairOk (c1 c2 : ascii) : bool :=
  match parseInt (String c1 (String c2 "")) 16, pairValue c1 c2 with
  | Some z, Some v =>
      (z =? v) && (0 <=? z) && (z <=? 255)
      && String.eqb (channelHex (JInt z))
                    (String (lowerChar c1) (String (lowerChar c2) ""))
  | _, _ => false
  end.

(** Rendering a byte gives two lower-case hex digits that read back as the
    byte, and [padStart(2, '0')] renders it the same way. *)
Definition byteOk (v : Z) : bool :=
  match channelHex (JInt v) with
  | String c1 (String c2 "") =>
      isHexDigit c1 && isHexDigit c2
      && match parseInt (String c1 (String c2 "")) 16 with
         | Some z => z =? v
         | None => false
         end
      && String.eqb (padStart (toString (JInt v) 16) 2 "0") (channelHex (JInt v))
      && Ascii.eqb (lowerChar c1) c1 && Ascii.eqb (lowerChar c2) c2
  | _ => false
  end.

(** *** The sampling pass, seen as a list of bucket keys *)

(** Byte offsets visited by the loop over an array of [n] bytes. *)
Definition sampleCount (n : nat) : nat := ((n + 39) / 40)%nat.

Definition sampleOffsets (n : nat) : list nat :=
  map (fun j => (40 * j)%nat) (seq 0 (sampleCount n)).

(** The key that the iteration at offset [i] counts, if the pixel there is
    not skipped. *)
Definition sampleKey (imageData : list Z) (i : nat) : option string :=
  if isTransparent (nth_error imageData (i + 3)) then None
  else Some (bucketKey (quantize (nth_error imageData i))
                       (quantize (nth_error imageData (i + 1)))
                       (quantize (nth_error imageData (i + 2)))).

Definition keysAt (imageData : list Z) (i : nat) : list string :=
  match sampleKey imageData i with
  | Some k => [k]
  | None => []
  end.

(** Keys of the qualifying sampled pixels, in the order of the pass. *)
Definition sampledKeys (imageData : list Z) : list string :=
  flat_map (keysAt imageData) (sampleOffsets (List.length imageData)).

(** Counting a sequence of keys into an empty map. *)
Definition tally (keys : list string) : ColorMap :=
  fold_left (fun m k => bump k m) keys [].

(** Number of occurrences of [k]. *)
Fixpoint countOcc (k : string) (keys : list string) : Z :=
  match keys with
  | [] => 0
  | k' :: rest => (if String.eqb k' k then 1 else 0) + countOcc k rest
  end.

(** Position of the first occurrence of [k] (the length when absent). *)
Fixpoint firstIndex (k : string) (keys : list string) : nat :=
  match keys with
  | [] => O
  | k' :: rest => if String.eqb k' k then O else S (firstIndex k rest)
  end.

(** Position at which the running count of [k] reaches [c >= 1]. *)
Fixpoint reachIndex (k : string) (c : nat) (keys : list string) : nat :=
  match keys with
  | [] => O
  | k' :: rest =>
      if String.eqb k' k
      then match c with
           | O => O
           | S O => O
           | S c' => S (reachIndex k c' rest)
           end
      else S (reachIndex k c rest)
  end.

(** [a] occurs in [l] with [b] somewhere behind it. *)
Fixpoint before {A : Type} (a b : A) (l : list A) : Prop :=
  match l with
  | [] => False
  | x :: l' => (x = a /\ In b l') \/ before a b l'
  end.

(** Every sampled pixel has alpha below 128. *)
Definition allSampledTransparent (imageData : list Z) : Prop :=
  forall i, (i < List.length imageData)%nat -> (i mod 40 = 0)%nat ->
            exists a, nth_error imageData (i + 3) = Some a /\ a < 128.

(** [colorMap[key] || 0]. *)
Fixpoint lookup (k : string) (m : ColorMap) : Z :=
  match m with
  | [] => 0
  | (k', c) :: rest => if String.eqb k' k then c else lookup k rest
  end.

Definition JsInt_eqb (x y : JsInt) : bool :=
  match x, y with
  | JInt a, JInt b => a =? b
  | JNaN, JNaN => true
  | JInf a, JInf b => Bool.eqb a b
  | _, _ => false
  end.

(** The values that quantization produces from bytes and from [undefined]. *)
Definition quantLevels : list JsInt :=
  JNaN :: map (fun k => JInt (16 * Z.of_nat k)) (seq 0 17).

(** Splitting a bucket key and converting the parts gives the quantized
    channels back. *)
Definition keyOk (qr qg qb : JsInt) : bool :=
  let c := bucketOfEntry (bucketKey qr qg qb, 0) in
  JsInt_eqb (bucket_r c) qr && JsInt_eqb (bucket_g c) qg
  && JsInt_eqb (bucket_b c) qb.

Definition isLevel (q : JsInt) : bool := existsb (JsInt_eqb q) quantLevels.

(** A bucket with a channel at 256 renders into more than seven
    characters, which is no Color string. *)
Definition overflowOk (qr qg qb : JsInt) : bool :=
  let hex := rgbToHex qr qg qb in
  implb (JsInt_eqb qr (JInt 256) || JsInt_eqb qg (JInt 256) || JsInt_eqb qb (JInt 256))
        ((7 <? String.length hex)%nat && negb (isHexColor hex)).

(** Every sampled pixel that the loop does not skip has byte channels,
    one of them from 248 to 255. *)
Definition allSampledOverflow (imageData : list Z) : Prop :=
  forall i, (i < List.length imageData)%nat -> (i mod 40 = 0)%nat ->
            isTransparent (nth_error imageData (i + 3)) = false ->
            exists r g b,
              nth_error imageData i = Some r
              /\ nth_error imageData (i + 1) = Some g
              /\ nth_error imageData (i + 2) = Some b
              /\ inByte r /\ inByte g /\ inByte b
              /\ (248 <= r \/ 248 <= g \/ 248 <= b).

(** Longer than the seven characters of a Color string, and not one. *)
Definition malformedHex (hex : string) : Prop :=
  (7 < String.length hex)%nat /\ isHexColor hex = false.

(** A 31x1 image whose sampled pixels (offsets 0, 40, 80, 120) are opaque
    and fall into the buckets A, B, B, A with A = (16,16,16) and
    B = (32,32,32). *)
Definition imageABBA : list Z :=
  [16; 16; 16; 255] ++ repeat 0 36 ++ [32; 32; 32; 255] ++ repeat 0 36
  ++ [32; 32; 32; 255] ++ repeat 0 36 ++ [16; 16; 16; 255].

(** The six scheme kinds of the [switch] in [generateScheme]. *)
Definition schemeKinds : list string :=
  ["complementary"; "analogous"; "triadic"; "tetradic"; "monochromatic";
   "split-complementary"].

(** *** WCAG 2.1 relative luminance, as the specification words it *)

Module WCAG.

Local Open Scope R_scope.

(** A channel value [v] in [0,1]: linear below the threshold, a power law
    above it. *)
Definition linear (v : R) : R :=
  if Rle_dec v 0.03928 then v / 12.92
  else Rpower ((v + 0.055) / 1.055) 2.4.

Definition luminance (r g b : R) : R :=
  0.2126 * linear r + 0.7152 * linear g + 0.0722 * linear b.

End WCAG.

(** *** Sampling the HSL round trip in binary64 *)

(** The 4096 Colors that have a three-digit form: channels that are
    multiples of 17. *)
Definition shortLevels : list Z := map (fun k => 17 * Z.of_nat k) (seq 0 16).

(** [hslToHex] undoes [hexToHsl] on the hex string of the Color. *)
Definition roundTripOk (r g b : Z) : bool :=
  let hex := rgbToHex (JInt r) (JInt g) (JInt b) in
  let x := hexToHsl (N := float) hex in
  String.eqb (hslToHex (hsl_h x) (hsl_s x) (hsl_l x)) hex.

(** *** The scheme table of the specification *)

(** How an entry derives from the base colour. *)
Inductive Variation : Type :=
| BaseColor                 (* the base colour itself: offset +0 *)
| HueOffset (degrees : Z)   (* hue moved, saturation and lightness kept *)
| LightnessTo (percent : Z) (* lightness replaced, hue and saturation kept *).

(** Roles and variations per kind, in the order of the table.  The role
    names are spelled as [generateScheme] spells them. *)
Definition schemeTable (kind : string) : list (string * Variation) :=
  if String.eqb kind "complementary" then
    [("Base", BaseColor); ("Complementary", HueOffset 180)]
  else if String.eqb kind "analogous" then
    [("Analogous 1", HueOffset (-30)); ("Analogous 2", HueOffset (-15));
     ("Base", BaseColor);
     ("Analogous 3", HueOffset 15); ("Analogous 4", HueOffset 30)]
  else if String.eqb kind "triadic" then
    [("Primary", BaseColor); ("Secondary", HueOffset 120);
     ("Tertiary", HueOffset 240)]
  else if String.eqb kind "tetradic" then
    [("Primary", BaseColor); ("Secondary", HueOffset 90);
     ("Tertiary", HueOffset 180); ("Quaternary", HueOffset 270)]
  else if String.eqb kind "monochromatic" then
    [("Dark", LightnessTo 20); ("Medium Dark", LightnessTo 40);
     ("Base", BaseColor);
     ("Medium Light", LightnessTo 70); ("Light", LightnessTo 90)]
  else if String.eqb kind "split-complementary" then
    [("Base", BaseColor); ("Split 1", HueOffset 150); ("Split 2", HueOffset 210)]
  else [].

(** The way [generateScheme] adds an offset to a hue: [(h + d) % 360],
    and [(h - |d| + 360) % 360] for a negative offset. *)
Definition shiftHue {N : Type} `{JsNumber N} (h : N) (degrees : Z) : N :=
  if degrees <? 0 then ((h - ofZ (- degrees) + ofZ 360) mod ofZ 360)%js
  else ((h + ofZ degrees) mod ofZ 360)%js.

(** The entry that a row of the table stands for, given the base hex
    string and its HSL triple. *)
Definition tableEntry {N : Type} `{JsNumber N} (hex : string) (hsl : HSL N)
    (row : string * Variation) : SchemeEntry :=
  match snd row with
  | BaseColor => mkSchemeEntry hex (fst row)
  | HueOffset d =>
      mkSchemeEntry (hslToHex (shiftHue (hsl_h hsl) d) (hsl_s hsl) (hsl_l hsl))
                    (fst row)
  | LightnessTo p =>
      mkSchemeEntry (hslToHex (hsl_h hsl) (hsl_s hsl) (ofZ p)) (fst row)
  end.

(** The real number in [0,360) that differs from [x] by a multiple of 360. *)
Definition wrap360 (x : R) : R := (x - 360 * IZR (Zfloor (x / 360)))%R.

(** ** Facts about the substrate *)

Lemma in_byteRange (v : Z) : inByte v -> In v byteRange.
Proof.
  intros [Hlo Hhi]. unfold byteRange.
  apply in_map_iff. exists (Z.to_nat v). split.
  - lia.
  - apply in_seq. lia.
Qed.

Lemma in_allAscii (c : ascii) : In c allAscii.
Proof.
  unfold allAscii. apply in_map_iff. exists (nat_of_ascii c). split.
  - apply ascii_nat_embedding.
  - apply in_seq. pose proof (nat_ascii_bounded c). lia.
Qed.

Lemma in_hexDigits (c : ascii) : isHexDigit c = true -> In c hexDigits.
Proof.
  intros Hc. unfold hexDigits. apply filter_In. split; [apply in_allAscii | exact Hc].
Qed.

Lemma pairOk_all :
  forallb (fun c1 => forallb (fun c2 => pairOk c1 c2) hexDigits) hexDigits = true.
Proof. vm_compute. reflexivity. Qed.

Lemma parse_pair (c1 c2 : ascii) :
  isHexDigit c1 = true -> isHexDigit c2 = true ->
  exists z, parseInt (String c1 (String c2 "")) 16 = Some z
            /\ pairValue c1 c2 = Some z
            /\ inByte z
            /\ channelHex (JInt z) = String (lowerChar c1) (String (lowerChar c2) "").
Proof.
  intros H1 H2.
  pose proof pairOk_all as Hall.
  rewrite forallb_forall in Hall.
  specialize (Hall c1 (in_hexDigits c1 H1)).
  rewrite forallb_forall in Hall.
  specialize (Hall c2 (in_hexDigits c2 H2)).
  unfold pairOk in Hall.
  destruct (parseInt (String c1 (String c2 "")) 16) as [z|]; [|discriminate].
  destruct (pairValue c1 c2) as [v|]; [|discriminate].
  apply andb_prop in Hall. destruct Hall as [Hall Hstr].
  apply andb_prop in Hall. destruct Hall as [Hall Hhi].
  apply andb_prop in Hall. destruct Hall as [Heq Hlo].
  apply Z.eqb_eq in Heq. subst v.
  exists z. repeat split.
  - apply Z.leb_le. exact Hlo.
  - apply Z.leb_le. exact Hhi.
  - apply String.eqb_eq. exact Hstr.
Qed.

(** Shape of a string of the Color form. *)
Lemma isHexColor_inv (x : string) :
  isHexColor x = true ->
  exists c1 c2 c3 c4 c5 c6,
    x = String "#" (String c1 (String c2 (String c3 (String c4
          (String c5 (String c6 ""))))))
    /\ isHexDigit c1 = true /\ isHexDigit c2 = true /\ isHexDigit c3 = true
    /\ isHexDigit c4 = true /\ isHexDigit c5 = true /\ isHexDigit c6 = true.
Proof.
  unfold isHexColor, isSixHex.
  destruct x as [|c0 x]; [discriminate|].
  destruct (Ascii.eqb_spec c0 "#") as [->|Hne].
  2:{ intros Habs. exfalso.
      destruct c0 as [[] [] [] [] [] [] [] []]; try discriminate Habs.
      apply Hne. reflexivity. }
  intros Hx. apply andb_prop in Hx. destruct Hx as [Hlen Hall].
  apply Nat.eqb_eq in Hlen.
  destruct x as [|c1 [|c2 [|c3 [|c4 [|c5 [|c6 [|c7 x]]]]]]]; try discriminate Hlen.
  cbn in Hall.
  repeat (apply andb_prop in Hall; let H := fresh "Hd" in destruct Hall as [H Hall]).
  exists c1, c2, c3, c4, c5, c6. repeat split; assumption.
Qed.

Lemma byteOk_all : forallb byteOk byteRange = true.
Proof. vm_compute. reflexivity. Qed.

Lemma render_byte (v : Z) :
  inByte v ->
  exists c1 c2,
    channelHex (JInt v) = String c1 (String c2 "")
    /\ isHexDigit c1 = true /\ isHexDigit c2 = true
    /\ parseInt (String c1 (String c2 "")) 16 = Some v
    /\ padStart (toString (JInt v) 16) 2 "0" = String c1 (String c2 "")
    /\ lowerChar c1 = c1 /\ lowerChar c2 = c2.
Proof.
  intros Hv.
  pose proof byteOk_all as Hall.
  rewrite forallb_forall in Hall.
  specialize (Hall v (in_byteRange v Hv)).
  unfold byteOk in Hall.
  destruct (channelHex (JInt v)) as [|c1 [|c2 [|c3 rest]]] eqn:Hch; try discriminate.
  repeat (apply andb_prop in Hall; let H := fresh "Hk" in destruct Hall as [Hall H]).
  destruct (parseInt (String c1 (String c2 "")) 16) as [z|] eqn:Hp; [|discriminate].
  apply Z.eqb_eq in Hk2. subst z.
  apply String.eqb_eq in Hk1. apply Ascii.eqb_eq in Hk0, Hk.
  exists c1, c2. repeat split; assumption.
Qed.

(** [rgbToHex] is the three channel texts behind a [#]. *)
Lemma rgbToHex_channels (r g b : JsInt) :
  rgbToHex r g b = "#" +++ channelHex r +++ channelHex g +++ channelHex b.
Proof.
  unfold rgbToHex, channelHex. cbn [map String.concat].
  reflexivity.
Qed.

(** The parser on a string of the Color form. *)
Lemma parseChannels_chars (c1 c2 c3 c4 c5 c6 : ascii) :
  parseChannels (String "#" (String c1 (String c2 (String c3 (String c4
                   (String c5 (String c6 "")))))))
  = (parseInt (String c1 (String c2 "")) 16,
     parseInt (String c3 (String c4 "")) 16,
     parseInt (String c5 (String c6 "")) 16).
Proof. reflexivity. Qed.

Lemma rgbToHex_bytes (r g b : Z) :
  inByte r -> inByte g -> inByte b ->
  isHexColor (rgbToHex (JInt r) (JInt g) (JInt b)) = true
  /\ parseChannels (rgbToHex (JInt r) (JInt g) (JInt b)) = (Some r, Some g, Some b)
  /\ toLowerCase (rgbToHex (JInt r) (JInt g) (JInt b)) = rgbToHex (JInt r) (JInt g) (JInt b).
Proof.
  intros Hr Hg Hb.
  destruct (render_byte r Hr) as (c1 & c2 & Er & H1 & H2 & Pr & _ & L1 & L2).
  destruct (render_byte g Hg) as (c3 & c4 & Eg & H3 & H4 & Pg & _ & L3 & L4).
  destruct (render_byte b Hb) as (c5 & c6 & Eb & H5 & H6 & Pb & _ & L5 & L6).
  rewrite rgbToHex_channels, Er, Eg, Eb.
  cbn [String.append].
  rewrite parseChannels_chars, Pr, Pg, Pb.
  split; [|split].
  - cbn. rewrite H1, H2, H3, H4, H5, H6. reflexivity.
  - reflexivity.
  - cbn [toLowerCase]. rewrite L1, L2, L3, L4, L5, L6.
    reflexivity.
Qed.

(** ** The inline hex parser (C6, C7) *)

Lemma parseChannels_hexColor_aux (x : string) :
  isHexColor x = true ->
  exists r g b,
    colorOfHex x = Some (r, g, b)
    /\ parseChannels x = (Some r, Some g, Some b)
    /\ inByte r /\ inByte g /\ inByte b
    /\ rgbToHex (JInt r) (JInt g) (JInt b) = toLowerCase x.
Proof.
  intros Hx.
  destruct (isHexColor_inv x Hx)
    as (c1 & c2 & c3 & c4 & c5 & c6 & -> & H1 & H2 & H3 & H4 & H5 & H6).
  destruct (parse_pair c1 c2 H1 H2) as (r & Pr & Vr & Br & Sr).
  destruct (parse_pair c3 c4 H3 H4) as (g & Pg & Vg & Bg & Sg).
  destruct (parse_pair c5 c6 H5 H6) as (b & Pb & Vb & Bb & Sb).
  exists r, g, b.
  rewrite parseChannels_chars, Pr, Pg, Pb.
  rewrite rgbToHex_channels, Sr, Sg, Sb.
  cbn [colorOfHex colorOfSixHex]. rewrite Vr, Vg, Vb.
  repeat split; try assumption; try apply Br; try apply Bg; try apply Bb.
Qed.




(** C7 (amended): parsing a string of the Color form and rendering the
    channels with [rgbToHex] gives the string in lower case; so the round
    trip is the identity exactly on the lower-case strings. *)
Theorem rgbToHex_parseChannels (x : string) :
  isHexColor x = true ->
  exists r g b,
    parseChannels x = (Some r, Some g, Some b)
    /\ rgbToHex (JInt r) (JInt g) (JInt b) = toLowerCase x
    /\ (toLowerCase x = x -> rgbToHex (JInt r) (JInt g) (JInt b) = x).
Proof.
  intros Hx.
  destruct (parseChannels_hexColor_aux x Hx) as (r & g & b & _ & H2 & _ & _ & _ & H6).
  exists r, g, b. split; [exact H2|]. split; [exact H6|].
  intros Hlow. rewrite H6. exact Hlow.
Qed.

Lemma rgbToHex_parseChannels_witness :
  isHexColor "#3498db" = true
  /\ exists r g b,
       parseChannels "#3498db" = (Some r, Some g, Some b)
       /\ rgbToHex (JInt r) (JInt g) (JInt b) = toLowerCase "#3498db"
       /\ (toLowerCase "#3498db" = "#3498db"
           -> rgbToHex (JInt r) (JInt g) (JInt b) = "#3498db").
Proof.
  split; [reflexivity | apply (rgbToHex_parseChannels "#3498db"); reflexivity].
Defined.

(** C7 as stated fails on upper-case input: the digits come back in lower
    case. *)
Lemma rgbToHex_parseChannels_uppercase :
  isHexColor "#FF00AB" = true
  /\ parseChannels "#FF00AB" = (Some 255, Some 0, Some 171)
  /\ rgbToHex (JInt 255) (JInt 0) (JInt 171) = "#ff00ab"
  /\ rgbToHex (JInt 255) (JInt 0) (JInt 171) <> "#FF00AB".
Proof. repeat split. discriminate. Qed.

(** ** The sampling loop and the bucket map *)

Lemma sampleCount_spec (n j : nat) :
  (j < sampleCount n)%nat <-> (40 * j < n)%nat.
Proof.
  unfold sampleCount.
  pose proof (Nat.div_mod_eq (n + 39) 40) as Hdm.
  pose proof (Nat.mod_upper_bound (n + 39) 40 ltac:(lia)) as Hmod.
  lia.
Qed.

Lemma sampleAt_keysAt (imageData : list Z) (i : nat) (m : ColorMap) :
  sampleAt imageData i m = fold_left (fun m k => bump k m) (keysAt imageData i) m.
Proof.
  unfold sampleAt, keysAt, sampleKey.
  destruct (isTransparent (nth_error imageData (i + 3))); reflexivity.
Qed.

(** With enough fuel the loop is the left fold of its iterations over the
    sampled offsets. *)
Lemma sampleLoop_fold (imageData : list Z) :
  forall (fuel j : nat) (m : ColorMap),
    (sampleCount (List.length imageData) - j <= fuel)%nat ->
    sampleLoop fuel imageData (40 * j) m
    = fold_left (fun m i => sampleAt imageData i m)
        (map (fun j => (40 * j)%nat)
             (seq j (sampleCount (List.length imageData) - j))) m.
Proof.
  induction fuel as [|fuel IH]; intros j m Hfuel.
  - replace (sampleCount (List.length imageData) - j)%nat with O by lia.
    reflexivity.
  - cbn [sampleLoop].
    destruct (Nat.ltb_spec (40 * j) (List.length imageData)) as [Hlt|Hge].
    + apply sampleCount_spec in Hlt.
      replace (sampleCount (List.length imageData) - j)%nat
        with (S (sampleCount (List.length imageData) - S j)) by lia.
      cbn [seq map fold_left].
      replace (40 * j + 40)%nat with (40 * S j)%nat by lia.
      apply IH. lia.
    + assert (~ (j < sampleCount (List.length imageData))%nat) as Hnot.
      { rewrite sampleCount_spec. lia. }
      replace (sampleCount (List.length imageData) - j)%nat with O by lia.
      reflexivity.
Qed.

Lemma sampleCount_le (n : nat) : (sampleCount n <= n)%nat.
Proof.
  destruct (Nat.le_gt_cases (sampleCount n) n) as [H|H]; [exact H|].
  exfalso.
  assert (n < sampleCount n)%nat as Hn by lia.
  apply sampleCount_spec in Hn. lia.
Qed.

Lemma fold_left_flat_map {A B C : Type} (f : C -> B -> C) (g : A -> list B)
    (l : list A) (m : C) :
  fold_left (fun m a => fold_left f (g a) m) l m = fold_left f (flat_map g l) m.
Proof.
  revert m. induction l as [|a l IH]; intros m; cbn.
  - reflexivity.
  - rewrite fold_left_app. apply IH.
Qed.

Lemma fold_left_pointwise {A B : Type} (f g : B -> A -> B) (l : list A) (m : B) :
  (forall m a, f m a = g m a) -> fold_left f l m = fold_left g l m.
Proof.
  intros Hfg. revert m. induction l as [|a l IH]; intros m; cbn.
  - reflexivity.
  - rewrite Hfg. apply IH.
Qed.

(** The bucket map is the tally of the sampled keys. *)
Lemma buildColorMap_tally (imageData : list Z) :
  buildColorMap imageData = tally (sampledKeys imageData).
Proof.
  unfold buildColorMap, tally, sampledKeys, sampleOffsets.
  change O with (40 * 0)%nat at 1.
  rewrite sampleLoop_fold.
  - rewrite Nat.sub_0_r.
    rewrite <- fold_left_flat_map.
    apply fold_left_pointwise. intros m i. apply sampleAt_keysAt.
  - pose proof (sampleCount_le (List.length imageData)). lia.
Qed.

Lemma in_sampleOffsets (n i : nat) :
  In i (sampleOffsets n) <-> (i < n)%nat /\ (i mod 40 = 0)%nat.
Proof.
  unfold sampleOffsets. rewrite in_map_iff. split.
  - intros (j & <- & Hj). apply in_seq in Hj.
    split.
    + apply (proj1 (sampleCount_spec n j)). lia.
    + rewrite Nat.mul_comm. apply Nat.Div0.mod_mul.
  - intros [Hlt Hmod]. exists (i / 40)%nat.
    pose proof (Nat.div_mod_eq i 40) as Hdm.
    split; [lia|].
    apply in_seq. split; [lia|]. cbn. apply (proj2 (sampleCount_spec n (i / 40))). lia.
Qed.

Lemma flat_map_nil {A B : Type} (g : A -> list B) (l : list A) :
  (forall a, In a l -> g a = []) -> flat_map g l = [].
Proof.
  induction l as [|a l IH]; intros Hg; cbn.
  - reflexivity.
  - rewrite (Hg a (or_introl eq_refl)). cbn. apply IH.
    intros a' Ha'. apply Hg. right. exact Ha'.
Qed.

Lemma sampledKeys_transparent (imageData : list Z) :
  allSampledTransparent imageData -> sampledKeys imageData = [].
Proof.
  intros Hall. unfold sampledKeys. apply flat_map_nil.
  intros i Hi. apply in_sampleOffsets in Hi. destruct Hi as [Hlt Hmod].
  destruct (Hall i Hlt Hmod) as (a & Ha & Hsmall).
  unfold keysAt, sampleKey. rewrite Ha. cbn.
  apply Z.ltb_lt in Hsmall. rewrite Hsmall. reflexivity.
Qed.

Lemma sortedColors_transparent (imageData : list Z) :
  allSampledTransparent imageData -> sortedColors imageData = [].
Proof.
  intros Hall. unfold sortedColors, sortedEntries.
  rewrite buildColorMap_tally, (sampledKeys_transparent _ Hall).
  reflexivity.
Qed.

(** ** An image without qualifying pixels (C4) *)

(** C4: on every image whose sampled pixels all have alpha below 128 the
    bucket list is empty, and [extractColors] does not return an empty
    palette: reading [sortedColors[0].r] throws a TypeError, and the global
    [extractedColors] keeps the palette of the previous image. *)
Theorem extractColors_transparent_throws (st : AppState) (imageData : list Z) :
  allSampledTransparent imageData ->
  sortedColors imageData = []
  /\ extractColors st imageData = (Throw TypeError, st).
Proof.
  intros Hall.
  pose proof (sortedColors_transparent imageData Hall) as Hnil.
  split; [exact Hnil|].
  unfold extractColors. rewrite Hnil. reflexivity.
Qed.

Lemma allSampledTransparent_pixel : allSampledTransparent [0; 0; 0; 0].
Proof.
  intros i Hi Hmod. cbn in Hi.
  assert (i = 0)%nat as -> by (destruct i as [|[|[|[|i]]]]; cbn in Hmod; lia).
  exists 0. split; [reflexivity | lia].
Defined.

Lemma extractColors_transparent_throws_witness :
  allSampledTransparent [0; 0; 0; 0]
  /\ sortedColors [0; 0; 0; 0] = []
  /\ extractColors (mkAppState [mkPaletteColor "#101010" "rgb(16, 16, 16)"] [])
       [0; 0; 0; 0]
     = (Throw TypeError,
        mkAppState [mkPaletteColor "#101010" "rgb(16, 16, 16)"] []).
Proof.
  split; [exact allSampledTransparent_pixel|].
  apply (extractColors_transparent_throws _ [0; 0; 0; 0]).
  exact allSampledTransparent_pixel.
Defined.

(** ** The stable sort *)

Section Sort.

Context {A : Type} (cmp : A -> A -> Z).

Lemma sortInsert_In (x a : A) (l : list A) :
  In a (sortInsert cmp x l) <-> a = x \/ In a l.
Proof.
  induction l as [|y l IH]; cbn.
  - intuition.
  - destruct (0 <? cmp x y); cbn; rewrite ?IH; intuition.
Qed.

Lemma Array_sort_In (a : A) (l : list A) : In a (Array_sort cmp l) <-> In a l.
Proof.
  induction l as [|x l IH]; cbn.
  - reflexivity.
  - rewrite sortInsert_In, IH. intuition.
Qed.

Lemma sortInsert_length (x : A) (l : list A) :
  List.length (sortInsert cmp x l) = S (List.length l).
Proof.
  induction l as [|y l IH]; cbn; [reflexivity|].
  destruct (0 <? cmp x y); cbn; [rewrite IH|]; reflexivity.
Qed.

Lemma Array_sort_length (l : list A) :
  List.length (Array_sort cmp l) = List.length l.
Proof.
  induction l as [|x l IH]; cbn; [reflexivity|].
  rewrite sortInsert_length, IH. reflexivity.
Qed.

(** An element ends up behind another only by staying there or by being
    moved behind one that the comparator puts first. *)
Lemma before_sortInsert (x a b : A) (l : list A) :
  before a b (sortInsert cmp x l) ->
  before a b l \/ (a = x /\ In b l) \/ (b = x /\ In a l /\ 0 < cmp x a).
Proof.
  induction l as [|y l IH]; cbn.
  - intros [[_ []]|[]].
  - destruct (0 <? cmp x y) eqn:Hc; cbn.
    + apply Z.ltb_lt in Hc.
      intros [[-> Hb]|Hbef].
      * apply sortInsert_In in Hb. destruct Hb as [->|Hb].
        -- right. right. auto.
        -- left. left. auto.
      * destruct (IH Hbef) as [H|[[-> H]|(-> & H & Hlt)]].
        -- left. right. exact H.
        -- right. left. auto.
        -- right. right. auto.
    + intros [[-> Hb]|[[-> Hb]|Hbef]].
      * right. left. auto.
      * left. left. auto.
      * left. right. exact Hbef.
Qed.

(** Stability: the sort reverses a pair only when the comparator says so. *)
Lemma before_Array_sort (a b : A) (l : list A) :
  before a b (Array_sort cmp l) -> before a b l \/ 0 < cmp b a.
Proof.
  induction l as [|x l IH]; cbn.
  - intros [].
  - intros Hbef. apply before_sortInsert in Hbef.
    destruct Hbef as [H|[[-> H]|(-> & H & Hlt)]].
    + destruct (IH H) as [H'|H']; [left; right; exact H' | right; exact H'].
    + left. left. split; [reflexivity|]. apply (proj1 (Array_sort_In b l)). exact H.
    + right. exact Hlt.
Qed.

Hypothesis cmp_trans :
  forall a b c, cmp a b <= 0 -> cmp b c <= 0 -> cmp a c <= 0.
Hypothesis cmp_flip : forall a b, 0 < cmp a b -> cmp b a <= 0.

Lemma sortInsert_sorted (x : A) (l : list A) :
  StronglySorted (fun a b => cmp a b <= 0) l ->
  StronglySorted (fun a b => cmp a b <= 0) (sortInsert cmp x l).
Proof.
  induction l as [|y l IH]; intros Hs; cbn.
  - constructor; constructor.
  - inversion Hs as [|? ? Hs' Hall]; subst.
    destruct (0 <? cmp x y) eqn:Hc.
    + apply Z.ltb_lt in Hc. constructor.
      * apply IH. exact Hs'.
      * apply Forall_forall. intros a Ha.
        apply sortInsert_In in Ha. destruct Ha as [->|Ha].
        -- apply cmp_flip. exact Hc.
        -- rewrite Forall_forall in Hall. apply Hall. exact Ha.
    + apply Z.ltb_ge in Hc. constructor.
      * exact Hs.
      * constructor; [exact Hc|].
        rewrite Forall_forall in Hall |- *.
        intros a Ha. apply (cmp_trans x y a Hc). apply Hall. exact Ha.
Qed.

Lemma Array_sort_sorted (l : list A) :
  StronglySorted (fun a b => cmp a b <= 0) (Array_sort cmp l).
Proof.
  induction l as [|x l IH]; cbn.
  - constructor.
  - apply sortInsert_sorted. exact IH.
Qed.

End Sort.

Lemma before_nth_error {A : Type} (l : list A) :
  forall (i j : nat) (a b : A),
    (i < j)%nat -> nth_error l i = Some a -> nth_error l j = Some b ->
    before a b l.
Proof.
  induction l as [|x l IH]; intros i j a b Hij Hi Hj.
  - destruct i; discriminate.
  - destruct j as [|j]; [lia|]. cbn in Hj.
    destruct i as [|i]; cbn in Hi.
    + injection Hi as ->. left. split; [reflexivity|].
      apply nth_error_In with j. exact Hj.
    + right. apply (IH i j); [lia | exact Hi | exact Hj].
Qed.

Lemma before_map {A B : Type} (f : A -> B) (a b : A) (l : list A) :
  before a b l -> before (f a) (f b) (map f l).
Proof.
  induction l as [|x l IH]; cbn.
  - intros [].
  - intros [[-> Hb]|H].
    + left. split; [reflexivity | apply in_map; exact Hb].
    + right. apply IH. exact H.
Qed.

Lemma before_app_single {A : Type} (a b k : A) (l : list A) :
  before a b (l ++ [k]) -> before a b l \/ (In a l /\ b = k).
Proof.
  induction l as [|x l IH]; cbn.
  - intros [[_ []]|[]].
  - intros [[-> Hb]|H].
    + apply in_app_or in Hb. destruct Hb as [Hb|[<-|[]]].
      * left. left. auto.
      * right. auto.
    + destruct (IH H) as [H'|[H' ->]].
      * left. right. exact H'.
      * right. auto.
Qed.

Lemma before_In {A : Type} (a b : A) (l : list A) :
  before a b l -> In a l /\ In b l.
Proof.
  induction l as [|x l IH]; cbn.
  - intros [].
  - intros [[-> Hb]|H].
    + auto.
    + destruct (IH H). auto.
Qed.

(** ** Counting keys into the bucket map *)

Lemma bump_known (k : string) (m : ColorMap) :
  In k (map fst m) -> map fst (bump k m) = map fst m.
Proof.
  induction m as [|[k' c] m IH]; cbn.
  - intros [].
  - destruct (String.eqb_spec k' k) as [->|Hne]; cbn.
    + reflexivity.
    + intros [Heq|Hin]; [contradiction|]. rewrite IH by exact Hin. reflexivity.
Qed.

Lemma bump_new (k : string) (m : ColorMap) :
  ~ In k (map fst m) -> bump k m = m ++ [(k, 1)].
Proof.
  induction m as [|[k' c] m IH]; cbn.
  - reflexivity.
  - intros Hnot. destruct (String.eqb_spec k' k) as [->|Hne].
    + exfalso. apply Hnot. left. reflexivity.
    + rewrite IH; [reflexivity|]. intros Hin. apply Hnot. right. exact Hin.
Qed.

Lemma lookup_bump (k k' : string) (m : ColorMap) :
  lookup k' (bump k m) = lookup k' m + (if String.eqb k k' then 1 else 0).
Proof.
  induction m as [|[k0 c] m IH]; cbn.
  - destruct (String.eqb k k'); reflexivity.
  - destruct (String.eqb_spec k0 k) as [->|Hne]; cbn.
    + destruct (String.eqb k k'); lia.
    + destruct (String.eqb_spec k0 k') as [->|Hne'].
      * destruct (String.eqb_spec k k') as [->|_]; [contradiction | lia].
      * exact IH.
Qed.

Lemma lookup_fold (k : string) (keys : list string) :
  forall m, lookup k (fold_left (fun m k => bump k m) keys m)
            = lookup k m + countOcc k keys.
Proof.
  induction keys as [|k0 keys IH]; intros m; cbn.
  - lia.
  - rewrite IH, lookup_bump. lia.
Qed.

Lemma bump_keys (k k' : string) (m : ColorMap) :
  In k' (map fst (bump k m)) <-> k' = k \/ In k' (map fst m).
Proof.
  destruct (in_dec string_dec k (map fst m)) as [Hin|Hnot].
  - rewrite bump_known by exact Hin. split; [auto|].
    intros [->|H]; assumption.
  - rewrite bump_new by exact Hnot. rewrite map_app, in_app_iff. cbn.
    intuition.
Qed.

Lemma tally_keys (k : string) (keys : list string) :
  In k (map fst (tally keys)) <-> In k keys.
Proof.
  unfold tally. induction keys as [|k0 keys IH] using rev_ind; cbn.
  - reflexivity.
  - rewrite fold_left_app. cbn. rewrite bump_keys, IH, in_app_iff. cbn.
    intuition.
Qed.

Lemma bump_NoDup (k : string) (m : ColorMap) :
  NoDup (map fst m) -> NoDup (map fst (bump k m)).
Proof.
  intros Hnd. destruct (in_dec string_dec k (map fst m)) as [Hin|Hnot].
  - rewrite bump_known by exact Hin. exact Hnd.
  - rewrite bump_new by exact Hnot. rewrite map_app. cbn.
    apply NoDup_rev in Hnd. rewrite <- (rev_involutive (map fst m ++ [k])).
    apply NoDup_rev. rewrite rev_app_distr. cbn. constructor.
    + rewrite <- in_rev. exact Hnot.
    + exact Hnd.
Qed.

Lemma tally_NoDup (keys : list string) : NoDup (map fst (tally keys)).
Proof.
  unfold tally. induction keys as [|k keys IH] using rev_ind; cbn.
  - constructor.
  - rewrite fold_left_app. cbn. apply bump_NoDup. exact IH.
Qed.

Lemma lookup_In (k : string) (c : Z) (m : ColorMap) :
  NoDup (map fst m) -> In (k, c) m -> lookup k m = c.
Proof.
  induction m as [|[k' c'] m IH]; cbn.
  - intros _ [].
  - intros Hnd [Heq|Hin].
    + injection Heq as -> ->. rewrite String.eqb_refl. reflexivity.
    + inversion Hnd as [|? ? Hnot Hnd']; subst.
      destruct (String.eqb_spec k' k) as [->|Hne].
      * exfalso. apply Hnot. apply in_map_iff. exists (k, c). auto.
      * apply IH; assumption.
Qed.

Lemma In_lookup (k : string) (m : ColorMap) :
  In k (map fst m) -> In (k, lookup k m) m.
Proof.
  induction m as [|[k' c'] m IH]; cbn.
  - intros [].
  - destruct (String.eqb_spec k' k) as [->|Hne].
    + intros _. left. reflexivity.
    + intros [Heq|Hin]; [contradiction|]. right. apply IH. exact Hin.
Qed.

(** The entries of the map are the distinct keys with their numbers of
    occurrences. *)
Lemma tally_entries (k : string) (c : Z) (keys : list string) :
  In (k, c) (tally keys) <-> In k keys /\ c = countOcc k keys.
Proof.
  pose proof (lookup_fold k keys []) as Hl. cbn in Hl. fold (tally keys) in Hl.
  split.
  - intros Hin. split.
    + apply tally_keys. apply in_map_iff. exists (k, c). auto.
    + rewrite <- Hl. symmetry. apply lookup_In; [apply tally_NoDup | exact Hin].
  - intros [Hin ->]. rewrite <- Hl. apply In_lookup. apply tally_keys. exact Hin.
Qed.

Lemma firstIndex_lt (k : string) (keys : list string) :
  In k keys -> (firstIndex k keys < List.length keys)%nat.
Proof.
  induction keys as [|k' keys IH]; cbn.
  - intros [].
  - destruct (String.eqb_spec k' k) as [->|Hne].
    + lia.
    + intros [Heq|Hin]; [contradiction|]. apply IH in Hin. lia.
Qed.

Lemma firstIndex_app (k : string) (keys rest : list string) :
  In k keys -> firstIndex k (keys ++ rest) = firstIndex k keys.
Proof.
  induction keys as [|k' keys IH]; cbn.
  - intros [].
  - destruct (String.eqb_spec k' k) as [->|Hne].
    + reflexivity.
    + intros [Heq|Hin]; [contradiction|]. rewrite IH by exact Hin. reflexivity.
Qed.

Lemma firstIndex_fresh (k : string) (keys : list string) :
  ~ In k keys -> firstIndex k (keys ++ [k]) = List.length keys.
Proof.
  induction keys as [|k' keys IH]; cbn.
  - rewrite String.eqb_refl. reflexivity.
  - intros Hnot. destruct (String.eqb_spec k' k) as [->|Hne].
    + exfalso. apply Hnot. left. reflexivity.
    + rewrite IH; [reflexivity|]. intros Hin. apply Hnot. right. exact Hin.
Qed.

(** The map lists its keys in the order of their first occurrences. *)
Lemma tally_order (ka kb : string) (keys : list string) :
  before ka kb (map fst (tally keys)) ->
  (firstIndex ka keys < firstIndex kb keys)%nat.
Proof.
  induction keys as [|k keys IH] using rev_ind.
  - cbn. intros [].
  - unfold tally. rewrite fold_left_app. cbn. fold (tally keys).
    destruct (in_dec string_dec k (map fst (tally keys))) as [Hin|Hnot].
    + rewrite bump_known by exact Hin. intros Hbef.
      destruct (before_In _ _ _ Hbef) as [Ha Hb].
      apply (proj1 (tally_keys _ _)) in Ha. apply (proj1 (tally_keys _ _)) in Hb.
      rewrite !firstIndex_app by assumption. apply IH. exact Hbef.
    + rewrite bump_new by exact Hnot. rewrite map_app. cbn. intros Hbef.
      apply before_app_single in Hbef. destruct Hbef as [Hbef|[Ha ->]].
      * destruct (before_In _ _ _ Hbef) as [Ha Hb].
        apply (proj1 (tally_keys _ _)) in Ha. apply (proj1 (tally_keys _ _)) in Hb.
        rewrite !firstIndex_app by assumption. apply IH. exact Hbef.
      * apply (proj1 (tally_keys _ _)) in Ha.
        rewrite firstIndex_app by exact Ha.
        rewrite firstIndex_fresh.
        -- apply firstIndex_lt. exact Ha.
        -- intros Hk. apply Hnot. apply (proj2 (tally_keys _ _)). exact Hk.
Qed.

(** ** Order of the palette (C9) *)

(** C9 (amended): the bucket list is sorted by descending count, its
    entries are the distinct keys of the qualifying sampled pixels with
    their numbers of occurrences, and of two buckets with the same count
    the one whose key occurs first in the pass comes first.  The palette
    that [extractColors] shows and stores is the first ten buckets of that
    list, in that order. *)
Theorem sortedEntries_order (imageData : list Z) :
  let keys := sampledKeys imageData in
  let out := sortedEntries imageData in
  StronglySorted (fun a b => snd a >= snd b) out
  /\ (forall k c, In (k, c) out <-> In k keys /\ c = countOcc k keys)
  /\ (forall i j ka kb c,
         (i < j)%nat ->
         nth_error out i = Some (ka, c) -> nth_error out j = Some (kb, c) ->
         (firstIndex ka keys < firstIndex kb keys)%nat)
  /\ (forall st view st',
         extractColors st imageData = (Normal view, st') ->
         view_grid view = map paletteColor (firstn 10 (map bucketOfEntry out))
         /\ extractedColors st' = view_grid view).
Proof.
  intros keys out. subst keys out.
  assert (forall st view st',
             extractColors st imageData = (Normal view, st') ->
             view_grid view
             = map paletteColor (firstn 10 (map bucketOfEntry (sortedEntries imageData)))
             /\ extractedColors st' = view_grid view) as Hpalette.
  { intros st view st'. unfold extractColors.
    change (map bucketOfEntry (sortedEntries imageData)) with (sortedColors imageData).
    destruct (sortedColors imageData) as [|dominant rest]; [discriminate|].
    intros Heq. apply pair_equal_spec in Heq. destruct Heq as [Hv <-].
    injection Hv as <-. split; reflexivity. }
  revert Hpalette. unfold sortedEntries.
  rewrite buildColorMap_tally. intros Hpalette.
  split; [|split; [|split]].
  - clear Hpalette.
    pose proof (Array_sort_sorted byCountDesc) as Hs.
    assert (forall l, StronglySorted (fun a b => byCountDesc a b <= 0)
                        (Array_sort byCountDesc l)) as Hs'.
    { apply Hs; unfold byCountDesc; intros; lia. }
    specialize (Hs' (tally (sampledKeys imageData))).
    induction Hs' as [|a l Hl IH Hall]; constructor.
    + exact IH.
    + eapply Forall_impl; [|exact Hall].
      unfold byCountDesc. intros b Hb. lia.
  - intros k c. rewrite Array_sort_In. apply tally_entries.
  - intros i j ka kb c Hij Hi Hj.
    apply tally_order.
    pose proof (before_nth_error _ i j _ _ Hij Hi Hj) as Hbef.
    apply before_Array_sort in Hbef. destruct Hbef as [Hbef|Habs].
    + apply (before_map fst) in Hbef. exact Hbef.
    + unfold byCountDesc in Habs. cbn in Habs. lia.
  - exact Hpalette.
Qed.

Lemma sortedEntries_order_witness :
  (0 < 1)%nat
  /\ nth_error (sortedEntries imageABBA) 0 = Some ("16,16,16", 2)
  /\ nth_error (sortedEntries imageABBA) 1 = Some ("32,32,32", 2)
  /\ (firstIndex "16,16,16" (sampledKeys imageABBA)
      < firstIndex "32,32,32" (sampledKeys imageABBA))%nat.
Proof.
  assert (nth_error (sortedEntries imageABBA) 0 = Some ("16,16,16", 2)) as H0
    by (vm_compute; reflexivity).
  assert (nth_error (sortedEntries imageABBA) 1 = Some ("32,32,32", 2)) as H1
    by (vm_compute; reflexivity).
  split; [lia|]. split; [exact H0|]. split; [exact H1|].
  destruct (sortedEntries_order imageABBA) as (_ & _ & Hties & _).
  exact (Hties 0%nat 1%nat "16,16,16" "32,32,32" 2 ltac:(lia) H0 H1).
Defined.

(** C9 as stated fails on the tie rule.  In the pass A, B, B, A both
    buckets end with count 2 and B is the first to reach it (at the third
    sample, A at the fourth), yet A, the first one seen, is listed first. *)
Lemma sortedEntries_not_reach_order :
  let keys := sampledKeys imageABBA in
  let out := sortedEntries imageABBA in
  keys = ["16,16,16"; "32,32,32"; "32,32,32"; "16,16,16"]
  /\ out = [("16,16,16", 2); ("32,32,32", 2)]
  /\ reachIndex "32,32,32" 2 keys = 2%nat
  /\ reachIndex "16,16,16" 2 keys = 3%nat
  /\ ~ (forall i j ka kb c,
          (i < j)%nat ->
          nth_error out i = Some (ka, c) -> nth_error out j = Some (kb, c) ->
          (reachIndex ka (Z.to_nat c) keys < reachIndex kb (Z.to_nat c) keys)%nat).
Proof.
  cbv zeta.
  assert (sampledKeys imageABBA
          = ["16,16,16"; "32,32,32"; "32,32,32"; "16,16,16"]) as Hk
    by (vm_compute; reflexivity).
  assert (sortedEntries imageABBA = [("16,16,16", 2); ("32,32,32", 2)]) as Ho
    by (vm_compute; reflexivity).
  rewrite Hk, Ho.
  repeat split.
  intros Hclaim.
  specialize (Hclaim 0%nat 1%nat "16,16,16" "32,32,32" 2
                ltac:(lia) eq_refl eq_refl).
  vm_compute in Hclaim. lia.
Qed.

(** ** Quantization past the byte range (C10) *)

Lemma Math_round_sixteenth (v : Z) : Math_round_Q (v # 16) = (v + 8) / 16.
Proof.
  unfold Math_round_Q, Qplus, Qfloor. cbn [Qnum Qden].
  change (Z.pos (16 * 2)) with (2 * 16).
  replace (v * 2 + 1 * 16) with (2 * (v + 8)) by lia.
  apply Z.div_mul_cancel_l; lia.
Qed.

Lemma quantize_byte (v : Z) : quantize (Some v) = JInt ((v + 8) / 16 * 16).
Proof. unfold quantize. rewrite Math_round_sixteenth. reflexivity. Qed.

Lemma JsInt_eqb_eq (x y : JsInt) : JsInt_eqb x y = true <-> x = y.
Proof.
  destruct x as [a| |a], y as [b| |b]; cbn;
    try (split; [discriminate | intros H; discriminate H]).
  - rewrite Z.eqb_eq. split; [intros ->; reflexivity | intros H; injection H; auto].
  - split; reflexivity.
  - rewrite Bool.eqb_true_iff.
    split; [intros ->; reflexivity | intros H; injection H; auto].
Qed.

Lemma quantize_level (v : Z) : inByte v -> isLevel (quantize (Some v)) = true.
Proof.
  intros Hv.
  assert (forallb (fun v => isLevel (quantize (Some v))) byteRange = true) as Hall
    by (vm_compute; reflexivity).
  rewrite forallb_forall in Hall. apply Hall. apply in_byteRange. exact Hv.
Qed.

Lemma isLevel_In (q : JsInt) : isLevel q = true -> In q quantLevels.
Proof.
  unfold isLevel. rewrite existsb_exists. intros (q' & Hin & Heq).
  apply JsInt_eqb_eq in Heq. subst q'. exact Hin.
Qed.

Lemma keyOk_all :
  forallb (fun qr => forallb (fun qg => forallb (fun qb => keyOk qr qg qb)
                                                quantLevels) quantLevels)
          quantLevels = true.
Proof. vm_compute. reflexivity. Qed.

(** A bucket key splits back into the channels it was built from. *)
Lemma bucketOfEntry_key (qr qg qb : JsInt) (c : Z) :
  isLevel qr = true -> isLevel qg = true -> isLevel qb = true ->
  bucketOfEntry (bucketKey qr qg qb, c) = mkBucket qr qg qb c.
Proof.
  intros Hr Hg Hb.
  pose proof keyOk_all as Hall.
  rewrite forallb_forall in Hall. specialize (Hall qr (isLevel_In _ Hr)).
  rewrite forallb_forall in Hall. specialize (Hall qg (isLevel_In _ Hg)).
  rewrite forallb_forall in Hall. specialize (Hall qb (isLevel_In _ Hb)).
  unfold keyOk in Hall.
  apply andb_prop in Hall. destruct Hall as [Hall H3].
  apply andb_prop in Hall. destruct Hall as [H1 H2].
  apply JsInt_eqb_eq in H1, H2, H3.
  unfold bucketOfEntry in *. cbn [fst snd] in *.
  destruct (map Number (split "," (bucketKey qr qg qb))) as [|r [|g [|b rest]]];
    cbn in *; congruence.
Qed.

Lemma overflowOk_all :
  forallb (fun qr => forallb (fun qg => forallb (fun qb => overflowOk qr qg qb)
                                                quantLevels) quantLevels)
          quantLevels = true.
Proof. vm_compute. reflexivity. Qed.

Lemma overflow_hex (qr qg qb : JsInt) :
  isLevel qr = true -> isLevel qg = true -> isLevel qb = true ->
  qr = JInt 256 \/ qg = JInt 256 \/ qb = JInt 256 ->
  (7 < String.length (rgbToHex qr qg qb))%nat
  /\ isHexColor (rgbToHex qr qg qb) = false.
Proof.
  intros Hr Hg Hb Hover.
  pose proof overflowOk_all as Hall.
  rewrite forallb_forall in Hall. specialize (Hall qr (isLevel_In _ Hr)).
  rewrite forallb_forall in Hall. specialize (Hall qg (isLevel_In _ Hg)).
  rewrite forallb_forall in Hall. specialize (Hall qb (isLevel_In _ Hb)).
  unfold overflowOk in Hall.
  assert (JsInt_eqb qr (JInt 256) || JsInt_eqb qg (JInt 256)
          || JsInt_eqb qb (JInt 256) = true) as Hcond.
  { destruct Hover as [ -> | [ -> | -> ] ]; cbn; rewrite ?orb_true_r; reflexivity. }
  rewrite Hcond in Hall. cbn [implb] in Hall.
  apply andb_prop in Hall. destruct Hall as [H1 H2].
  split.
  - apply Nat.ltb_lt. exact H1.
  - apply negb_true_iff. exact H2.
Qed.

(** A sampled pixel that is not skipped contributes its key. *)
Lemma sampledKeys_In (imageData : list Z) (i : nat) (a : Z) :
  (i mod 40 = 0)%nat ->
  nth_error imageData (i + 3) = Some a -> 128 <= a ->
  In (bucketKey (quantize (nth_error imageData i))
                (quantize (nth_error imageData (i + 1)))
                (quantize (nth_error imageData (i + 2))))
     (sampledKeys imageData).
Proof.
  intros Hmod Ha Hopaque.
  unfold sampledKeys. apply in_flat_map. exists i. split.
  - apply in_sampleOffsets. split; [|exact Hmod].
    assert (i + 3 < List.length imageData)%nat
      by (apply nth_error_Some; rewrite Ha; discriminate).
    lia.
  - unfold keysAt, sampleKey. rewrite Ha. cbn [isTransparent].
    destruct (Z.ltb_spec a 128); [lia|]. left. reflexivity.
Qed.

(** A key of the pass comes from a sampled pixel that was not skipped. *)
Lemma sampledKeys_inv (imageData : list Z) (key : string) :
  In key (sampledKeys imageData) ->
  exists i,
    (i < List.length imageData)%nat /\ (i mod 40 = 0)%nat
    /\ isTransparent (nth_error imageData (i + 3)) = false
    /\ key = bucketKey (quantize (nth_error imageData i))
                       (quantize (nth_error imageData (i + 1)))
                       (quantize (nth_error imageData (i + 2))).
Proof.
  unfold sampledKeys. rewrite in_flat_map. intros (i & Hi & Hkey).
  apply in_sampleOffsets in Hi. destruct Hi as [Hlt Hmod].
  exists i. unfold keysAt, sampleKey in Hkey.
  destruct (isTransparent (nth_error imageData (i + 3))) eqn:Ht.
  - destruct Hkey.
  - destruct Hkey as [<-|[]]. repeat split; assumption.
Qed.

(** A bucket of the sorted list is a key of the pass with its count. *)
Lemma sortedColors_inv (imageData : list Z) (c : Bucket) :
  In c (sortedColors imageData) ->
  exists key,
    In key (sampledKeys imageData)
    /\ c = bucketOfEntry (key, countOcc key (sampledKeys imageData)).
Proof.
  unfold sortedColors, sortedEntries. rewrite in_map_iff.
  intros ([key n] & <- & Hin).
  apply Array_sort_In in Hin. rewrite buildColorMap_tally in Hin.
  apply tally_entries in Hin. destruct Hin as [Hkey ->].
  exists key. split; [exact Hkey | reflexivity].
Qed.

(** What [extractColors] returns and stores when the sorted list has a
    first bucket. *)
Lemma extractColors_normal (st : AppState) (imageData : list Z)
    (dominant : Bucket) (rest : list Bucket) :
  sortedColors imageData = dominant :: rest ->
  extractColors st imageData
  = (Normal (mkPaletteView (pc_hex (paletteColor dominant))
               (map paletteColor (firstn 10 (dominant :: rest)))),
     mkAppState (map paletteColor (firstn 10 (dominant :: rest)))
                (currentScheme st)).
Proof.
  intros Hs. unfold extractColors. rewrite Hs. reflexivity.
Qed.

Lemma nth_error_In_firstn {A : Type} (l : list A) (n k : nat) (a : A) :
  nth_error l k = Some a -> (k < n)%nat -> In a (firstn n l).
Proof.
  revert n k. induction l as [|x l IH]; intros n k Hk Hlt.
  - destruct k; discriminate.
  - destruct n as [|n]; [lia|]. destruct k as [|k]; cbn in *.
    + left. congruence.
    + right. apply (IH n k); [exact Hk | lia].
Qed.

Lemma firstn_In {A : Type} (l : list A) (n : nat) (a : A) :
  In a (firstn n l) -> In a l.
Proof.
  revert n. induction l as [|x l IH]; intros n Hin.
  - destruct n; destruct Hin.
  - destruct n as [|n]; [destruct Hin|]. cbn in Hin.
    destruct Hin as [->|Hin]; [left; reflexivity | right; apply (IH n Hin)].
Qed.

(** A channel from 248 to 255 quantizes to 256. *)
Lemma quantize_high (v : Z) : 248 <= v <= 255 -> quantize (Some v) = JInt 256.
Proof.
  intros Hv. rewrite quantize_byte. f_equal.
  replace ((v + 8) / 16) with 16; [reflexivity|].
  apply (Z.div_unique (v + 8) 16 16 (v + 8 - 256)); lia.
Qed.

(** The hex string of a bucket with such a channel. *)
Lemma overflow_bucket_hex (r g b : Z) :
  inByte r -> inByte g -> inByte b ->
  248 <= r \/ 248 <= g \/ 248 <= b ->
  malformedHex (rgbToHex (quantize (Some r)) (quantize (Some g))
                         (quantize (Some b))).
Proof.
  intros Hr Hg Hb Hover.
  apply overflow_hex; try (apply quantize_level; assumption).
  unfold inByte in *.
  destruct Hover as [H|[H|H]]; [left | right; left | right; right];
    apply quantize_high; lia.
Qed.

(** C10: a channel value from 248 to 255 quantizes to 256, which
    [rgbToHex] renders as the three characters "100", unpadded and
    unclamped; whatever the other two channels are, the hex string of such
    a bucket is longer than seven characters and is no Color string.  For
    every sampled opaque pixel with such a channel, [extractColors]
    completes, the bucket of the pixel is in the sorted list with that hex
    string, which is the dominant colour shown when the bucket is first
    and an entry of the palette shown and stored when it is among the
    first ten.  When every sampled opaque pixel has such a channel, the
    dominant colour and every palette entry are such strings. *)
Theorem quantize_overflow :
  (forall v, 248 <= v <= 255 ->
             quantize (Some v) = JInt 256 /\ channelHex (JInt 256) = "100")
  /\ (forall r g b,
         inByte r -> inByte g -> inByte b ->
         248 <= r \/ 248 <= g \/ 248 <= b ->
         let hex := rgbToHex (quantize (Some r)) (quantize (Some g))
                             (quantize (Some b)) in
         (7 < String.length hex)%nat /\ isHexColor hex = false)
  /\ (forall st imageData i r g b a,
         (i mod 40 = 0)%nat ->
         nth_error imageData i = Some r ->
         nth_error imageData (i + 1) = Some g ->
         nth_error imageData (i + 2) = Some b ->
         nth_error imageData (i + 3) = Some a ->
         inByte r -> inByte g -> inByte b -> 128 <= a ->
         248 <= r \/ 248 <= g \/ 248 <= b ->
         let hex := rgbToHex (quantize (Some r)) (quantize (Some g))
                             (quantize (Some b)) in
         exists view st' c k,
           extractColors st imageData = (Normal view, st')
           /\ nth_error (sortedColors imageData) k = Some c
           /\ pc_hex (paletteColor c) = hex
           /\ (7 < String.length (pc_hex (paletteColor c)))%nat
           /\ isHexColor (pc_hex (paletteColor c)) = false
           /\ (k = 0%nat -> view_dominant view = hex)
           /\ ((k < 10)%nat ->
               In (paletteColor c) (view_grid view)
               /\ In (paletteColor c) (extractedColors st')))
  /\ (forall st imageData,
         sampledKeys imageData <> [] ->
         allSampledOverflow imageData ->
         exists view st',
           extractColors st imageData = (Normal view, st')
           /\ malformedHex (view_dominant view)
           /\ (forall p, In p (view_grid view) -> malformedHex (pc_hex p))
           /\ extractedColors st' = view_grid view).
Proof.
  split; [|split; [|split]].
  - intros v Hv. split; [apply quantize_high; exact Hv | reflexivity].
  - intros r g b Hr Hg Hb Hover. cbv zeta.
    apply overflow_bucket_hex; assumption.
  - intros st imageData i r g b a Hmod Er Eg Eb Ea Hr Hg Hb Ha Hover. cbv zeta.
    pose proof (sampledKeys_In imageData i a Hmod Ea Ha) as Hin.
    rewrite Er, Eg, Eb in Hin.
    set (key := bucketKey (quantize (Some r)) (quantize (Some g))
                          (quantize (Some b))) in *.
    set (c := bucketOfEntry (key, countOcc key (sampledKeys imageData))).
    assert (pc_hex (paletteColor c)
            = rgbToHex (quantize (Some r)) (quantize (Some g)) (quantize (Some b)))
      as Hhex.
    { unfold c, key. rewrite bucketOfEntry_key by (apply quantize_level; assumption).
      reflexivity. }
    assert (In c (sortedColors imageData)) as Hc.
    { unfold sortedColors, sortedEntries. apply in_map.
      apply Array_sort_In. rewrite buildColorMap_tally.
      apply tally_entries. split; [exact Hin | reflexivity]. }
    destruct (In_nth_error _ _ Hc) as [k Hk].
    destruct (sortedColors imageData) as [|dominant rest] eqn:Hs;
      [destruct Hc|].
    pose proof (overflow_bucket_hex r g b Hr Hg Hb Hover) as [Hlen Hbad].
    eexists. eexists. exists c, k.
    split; [apply (extractColors_normal st imageData dominant rest Hs)|].
    cbn [view_dominant view_grid extractedColors].
    split; [exact Hk|]. split; [exact Hhex|].
    split; [rewrite Hhex; exact Hlen|]. split; [rewrite Hhex; exact Hbad|].
    split.
    + intros ->. cbn in Hk. injection Hk as ->. exact Hhex.
    + intros Hlt.
      assert (In (paletteColor c)
                 (map paletteColor (firstn 10 (dominant :: rest)))) as Hgrid.
      { apply in_map. apply (nth_error_In_firstn _ 10 k); assumption. }
      split; exact Hgrid.
  - intros st imageData Hsome Hall.
    assert (forall c, In c (sortedColors imageData) ->
                      malformedHex (pc_hex (paletteColor c))) as Hbad.
    { intros c Hc.
      destruct (sortedColors_inv imageData c Hc) as (key & Hkey & ->).
      destruct (sampledKeys_inv imageData key Hkey)
        as (i & Hlt & Hmod & Ht & ->).
      destruct (Hall i Hlt Hmod Ht)
        as (r & g & b & Er & Eg & Eb & Hr & Hg & Hb & Hover).
      rewrite Er, Eg, Eb.
      rewrite bucketOfEntry_key by (apply quantize_level; assumption).
      apply overflow_bucket_hex; assumption. }
    destruct (sortedColors imageData) as [|dominant rest] eqn:Hs.
    + exfalso. apply Hsome.
      destruct (sampledKeys imageData) as [|key keys] eqn:Hkeys; [reflexivity|].
      assert (In (bucketOfEntry (key, countOcc key (sampledKeys imageData)))
                 (sortedColors imageData)) as Hin.
      { unfold sortedColors, sortedEntries. apply in_map.
        apply Array_sort_In. rewrite buildColorMap_tally.
        apply tally_entries. split; [|reflexivity].
        rewrite Hkeys. left. reflexivity. }
      rewrite Hs in Hin. destruct Hin.
    + eexists. eexists.
      split; [apply (extractColors_normal st imageData dominant rest Hs)|].
      cbn [view_dominant view_grid extractedColors].
      split; [apply Hbad; left; reflexivity|].
      split; [|reflexivity].
      intros p Hp. apply in_map_iff in Hp. destruct Hp as (c & <- & Hc).
      apply Hbad. apply (firstn_In _ 10). exact Hc.
Qed.

Lemma allSampledOverflow_white : allSampledOverflow [255; 255; 255; 255].
Proof.
  intros i Hlt Hmod _. cbn in Hlt.
  assert (i = 0%nat) as -> by (rewrite Nat.mod_small in Hmod; lia).
  exists 255, 255, 255. unfold inByte. cbn. repeat split; lia.
Qed.

Lemma quantize_overflow_witness :
  (quantize (Some 255) = JInt 256 /\ channelHex (JInt 256) = "100")
  /\ (Nat.lt 7 (String.length (rgbToHex (quantize (Some 255)) (quantize (Some 128))
                                      (quantize (Some 7))))
      /\ isHexColor (rgbToHex (quantize (Some 255)) (quantize (Some 128))
                              (quantize (Some 7))) = false)
  /\ (exists view st' c k,
         extractColors (mkAppState [] []) [255; 128; 7; 200] = (Normal view, st')
         /\ nth_error (sortedColors [255; 128; 7; 200]) k = Some c
         /\ pc_hex (paletteColor c)
            = rgbToHex (quantize (Some 255)) (quantize (Some 128))
                       (quantize (Some 7))
         /\ Nat.lt 7 (String.length (pc_hex (paletteColor c)))
         /\ isHexColor (pc_hex (paletteColor c)) = false
         /\ (k = 0%nat ->
             view_dominant view
             = rgbToHex (quantize (Some 255)) (quantize (Some 128))
                        (quantize (Some 7)))
         /\ (Nat.lt k 10 ->
             In (paletteColor c) (view_grid view)
             /\ In (paletteColor c) (extractedColors st')))
  /\ (exists view st',
         extractColors (mkAppState [] []) [255; 255; 255; 255] = (Normal view, st')
         /\ malformedHex (view_dominant view)
         /\ (forall p, In p (view_grid view) -> malformedHex (pc_hex p))
         /\ extractedColors st' = view_grid view).
Proof.
  destruct quantize_overflow as (H1 & H2 & H3 & H4).
  split; [apply H1; lia|]. split; [|split].
  - apply (H2 255 128 7); unfold inByte; lia.
  - apply (H3 (mkAppState [] []) [255; 128; 7; 200] 0%nat 255 128 7 200);
      try reflexivity; unfold inByte; lia.
  - apply (H4 (mkAppState [] []) [255; 255; 255; 255]).
    + discriminate.
    + exact allSampledOverflow_white.
Defined.

(** A white image: the dominant colour it yields is no Color string. *)
Example extractColors_white :
  fst (extractColors (mkAppState [] []) [255; 255; 255; 255])
  = Normal (mkPaletteView "#100100100"
              [mkPaletteColor "#100100100" "rgb(256, 256, 256)"]).
Proof. vm_compute. reflexivity. Qed.

(** ** An unrecognized scheme kind (C5) *)

Lemma schemeOf_unknown_kind {N : Type} `{JsNumber N} (hex type : string) :
  ~ In type schemeKinds -> schemeOf hex type = [].
Proof.
  intros Hnot. unfold schemeOf.
  repeat match goal with
         | |- context [String.eqb type ?k] =>
             destruct (String.eqb_spec type k) as [->|_];
             [exfalso; apply Hnot; cbn; tauto|]
         end.
  reflexivity.
Qed.

(** C5 (amended): with a kind outside the six, no case of the [switch]
    matches: [generateScheme] completes normally, leaves [currentScheme]
    empty and displays the empty scheme.  No error is raised. *)
Theorem generateScheme_unknown_kind {N : Type} `{JsNumber N}
    (st : AppState) (hex type : string) :
  ~ In type schemeKinds ->
  generateScheme st hex type = (Normal [], mkAppState (extractedColors st) []).
Proof.
  intros Hnot. unfold generateScheme.
  rewrite (schemeOf_unknown_kind hex type Hnot). reflexivity.
Qed.

Lemma not_kind_square : ~ In "square" schemeKinds.
Proof.
  cbn. intros [H|[H|[H|[H|[H|[H|[]]]]]]]; discriminate H.
Defined.

Lemma generateScheme_unknown_kind_witness :
  ~ In "square" schemeKinds
  /\ generateScheme (N := float) (mkAppState [] [mkSchemeEntry "#ff0000" "Base"])
       "#3498db" "square"
     = (Normal [], mkAppState [] []).
Proof.
  split; [exact not_kind_square|].
  apply (generateScheme_unknown_kind (N := float)). exact not_kind_square.
Defined.

(** C5 as stated fails: the call with the kind "square" does not fail, it
    returns normally with an empty scheme. *)
Lemma generateScheme_never_throws :
  ~ In "square" schemeKinds
  /\ fst (generateScheme (N := float) (mkAppState [] []) "#3498db" "square")
     = Normal []
  /\ forall e : JsError,
       fst (generateScheme (N := float) (mkAppState [] []) "#3498db" "square")
       <> Throw e.
Proof.
  split; [exact not_kind_square|].
  split; [vm_compute; reflexivity|].
  intros e. vm_compute. discriminate.
Qed.

(** ** Reading the exact instance *)

Lemma exact_leb_true (x y : R) : nle (N := R) x y = true <-> (x <= y)%R.
Proof.
  cbn. unfold Exact.leb. destruct (Rle_dec x y); split; auto; discriminate.
Qed.

Lemma exact_ltb_true (x y : R) : nlt (N := R) x y = true <-> (x < y)%R.
Proof.
  cbn. unfold Exact.ltb. destruct (Rlt_dec x y); split; auto; discriminate.
Qed.

Lemma exact_eqb_true (x y : R) : strictEq (N := R) x y = true <-> x = y.
Proof.
  cbn. unfold Exact.eqb. destruct (Req_dec_T x y); split; auto; discriminate.
Qed.

Lemma exact_dec (p q : Z) : dec (N := R) p q = (IZR p / IZR q)%R.
Proof. reflexivity. Qed.

(** ** Contrast ratio and pass flags (C1) *)

(** C1: in every Number system and for every [Math.pow], the ratio that
    [checkContrast] computes is (max(L1,L2) + 0.05) / (min(L1,L2) + 0.05)
    on the two luminances, and each flag is the comparison of that ratio
    with its own threshold: 4.5, 3, 7 and 4.5.  Read in exact arithmetic,
    each flag is PASS exactly when the ratio is at least its threshold. *)
Theorem checkContrast_ratio_flags :
  (forall (N : Type) (num : JsNumber N) (Math_pow : N -> N -> N)
          (foreground background : string),
      let L1 := getLuminance Math_pow foreground in
      let L2 := getLuminance Math_pow background in
      let res := checkContrast Math_pow foreground background in
      cr_ratio res
      = ((Math_max L1 L2 + dec 5 100) / (Math_min L1 L2 + dec 5 100))%js
      /\ cr_aaNormal res = (dec 45 10 <=? cr_ratio res)%js
      /\ cr_aaLarge res = (ofZ 3 <=? cr_ratio res)%js
      /\ cr_aaaNormal res = (ofZ 7 <=? cr_ratio res)%js
      /\ cr_aaaLarge res = (dec 45 10 <=? cr_ratio res)%js)
  /\ (forall (Math_pow : R -> R -> R) (foreground background : string),
         let L1 := getLuminance Math_pow foreground in
         let L2 := getLuminance Math_pow background in
         let res := checkContrast Math_pow foreground background in
         (cr_ratio res = (Rmax L1 L2 + 0.05) / (Rmin L1 L2 + 0.05)
          /\ (cr_aaNormal res = true <-> cr_ratio res >= 4.5)
          /\ (cr_aaLarge res = true <-> cr_ratio res >= 3.0)
          /\ (cr_aaaNormal res = true <-> cr_ratio res >= 7.0)
          /\ (cr_aaaLarge res = true <-> cr_ratio res >= 4.5))%R).
Proof.
  split.
  - intros N num Math_pow foreground background. cbv zeta.
    repeat split.
  - intros Math_pow foreground background. cbv zeta.
    unfold checkContrast. cbn [cr_ratio cr_aaNormal cr_aaLarge cr_aaaNormal cr_aaaLarge].
    set (ratio := ((Math_max _ _ + _) / _)%js).
    rewrite !exact_leb_true, !exact_dec.
    cbn [ofZ exact].
    split; [|repeat split; intros Hc; lra].
    subst ratio. cbn [nadd ndiv Math_max Math_min exact]. rewrite exact_dec.
    f_equal; f_equal; lra.
Qed.

Lemma checkContrast_ratio_flags_witness :
  let res := checkContrast (N := R) Rpower "#000000" "#ffffff" in
  (cr_aaNormal res = true <-> cr_ratio res >= 4.5)%R
  /\ (cr_aaaNormal res = true <-> cr_ratio res >= 7.0)%R.
Proof.
  destruct checkContrast_ratio_flags as (_ & HB).
  destruct (HB Rpower "#000000" "#ffffff") as (_ & H1 & _ & H3 & _).
  split; [exact H1 | exact H3].
Defined.

(** ** Relative luminance (C2) *)

Lemma hexChannels_valid {N : Type} `{JsNumber N} (x : string) (r g b : Z) :
  parseChannels x = (Some r, Some g, Some b) ->
  hexChannel x 1 3 = ofZ r /\ hexChannel x 3 5 = ofZ g /\ hexChannel x 5 7 = ofZ b.
Proof.
  unfold parseChannels, hexChannel. intros Hp.
  injection Hp as -> -> ->. repeat split.
Qed.

Lemma linearize_exact (v : R) : linearize (N := R) Rpower v = WCAG.linear v.
Proof.
  unfold linearize, WCAG.linear.
  cbn [nle ndiv nadd exact]. rewrite !exact_dec. unfold Exact.leb.
  replace (3928 / 100000)%R with 0.03928%R by lra.
  destruct (Rle_dec v 0.03928).
  - lra.
  - f_equal; lra.
Qed.

Lemma Rpower_unit_interval (x y : R) :
  (0 < x <= 1)%R -> (0 <= y)%R -> (0 < Rpower x y <= 1)%R.
Proof.
  intros [Hpos Hle] Hy. unfold Rpower. split; [apply exp_pos|].
  rewrite <- exp_0.
  assert (ln x <= 0)%R as Hln.
  { destruct Hle as [Hlt| ->].
    - left. rewrite <- ln_1. apply ln_increasing; assumption.
    - rewrite ln_1. lra. }
  assert (y * ln x <= 0)%R as Hprod by nra.
  destruct Hprod as [Hlt|Heq].
  - left. apply exp_increasing. exact Hlt.
  - rewrite Heq. lra.
Qed.

Lemma linear_unit_interval (v : R) :
  (0 <= v <= 1)%R -> (0 <= WCAG.linear v <= 1)%R.
Proof.
  intros Hv. unfold WCAG.linear. destruct (Rle_dec v 0.03928).
  - lra.
  - assert (0 < Rpower ((v + 0.055) / 1.055) 2.4 <= 1)%R as Hp.
    { apply Rpower_unit_interval; lra. }
    lra.
Qed.

Lemma byte_unit_interval (v : Z) : inByte v -> (0 <= IZR v / 255 <= 1)%R.
Proof.
  intros [Hlo Hhi]. apply IZR_le in Hlo, Hhi. lra.
Qed.

(** In binary64 the threshold test of [linearize] sends the channels
    0 to 10 to the linear branch and the others to the power law, as it
    does in exact arithmetic. *)
Lemma threshold_binary64 :
  forallb (fun c => Bool.eqb (nle (N := float) (ofZ c / ofZ 255)%js (dec 3928 100000))
                             (c <=? 10))
          byteRange = true.
Proof. vm_compute. reflexivity. Qed.



(** ** Hue arithmetic in exact arithmetic *)

Section ExactArithmetic.

Local Open Scope R_scope.

Lemma wrap360_range (x : R) : 0 <= wrap360 x < 360.
Proof.
  unfold wrap360. pose proof (Zfloor_bound (x / 360)) as Hb. lra.
Qed.

Lemma wrap360_period (x : R) : wrap360 (x + 360) = wrap360 x.
Proof.
  unfold wrap360.
  replace ((x + 360) / 360) with (x / 360 + IZR 1) by (cbn; lra).
  rewrite Zfloor_addz, plus_IZR. cbn. lra.
Qed.

(** On a non-negative dividend [%] is the mathematical remainder. *)
Lemma exact_rem_nonneg (x : R) : 0 <= x -> nrem (N := R) x 360 = wrap360 x.
Proof.
  intros Hx. cbn [nrem exact]. unfold Exact.rem, Exact.trunc, wrap360.
  destruct (Rle_dec 0 (x / 360)) as [_|Hneg]; [reflexivity|].
  exfalso. apply Hneg. lra.
Qed.

Lemma rem12_small (x : R) : 0 <= x < 12 -> Exact.rem x 12 = x.
Proof.
  intros Hx. unfold Exact.rem, Exact.trunc.
  destruct (Rle_dec 0 (x / 12)) as [_|Hn]; [|exfalso; apply Hn; lra].
  rewrite (Zfloor_eq 0); [lra|]. cbn. lra.
Qed.

Lemma rem12_wrap (x : R) : 12 <= x < 24 -> Exact.rem x 12 = x - 12.
Proof.
  intros Hx. unfold Exact.rem, Exact.trunc.
  destruct (Rle_dec 0 (x / 12)) as [_|Hn]; [|exfalso; apply Hn; lra].
  rewrite (Zfloor_eq 1); [lra|]. cbn. lra.
Qed.

(** Facts about a quotient by a positive number. *)
Lemma quotient_spec (n d : R) : 0 < d -> n / d * d = n.
Proof. intros Hd. field. lra. Qed.

Lemma quotient_bounds (n d : R) : 0 < d -> - d <= n <= d -> -1 <= n / d <= 1.
Proof.
  intros Hd [Hlo Hhi]. unfold Rdiv.
  assert (0 < / d) as Hinv by (apply Rinv_0_lt_compat; exact Hd).
  assert (d * / d = 1) as Hone by (apply Rinv_r; lra).
  split; nra.
Qed.

Lemma quotient_negative (n d : R) : 0 < d -> n < 0 -> n / d < 0.
Proof.
  intros Hd Hn. unfold Rdiv.
  assert (0 < / d) as Hinv by (apply Rinv_0_lt_compat; exact Hd).
  nra.
Qed.

Lemma quotient_nonneg (n d : R) : 0 < d -> 0 <= n -> 0 <= n / d.
Proof.
  intros Hd Hn. unfold Rdiv.
  assert (0 < / d) as Hinv by (apply Rinv_0_lt_compat; exact Hd).
  nra.
Qed.

(** Maximum and minimum of three. *)
Lemma max3_bounds (r g b : R) :
  r <= Rmax (Rmax r g) b /\ g <= Rmax (Rmax r g) b /\ b <= Rmax (Rmax r g) b.
Proof.
  pose proof (Rmax_l (Rmax r g) b). pose proof (Rmax_r (Rmax r g) b).
  pose proof (Rmax_l r g). pose proof (Rmax_r r g). lra.
Qed.

Lemma min3_bounds (r g b : R) :
  Rmin (Rmin r g) b <= r /\ Rmin (Rmin r g) b <= g /\ Rmin (Rmin r g) b <= b.
Proof.
  pose proof (Rmin_l (Rmin r g) b). pose proof (Rmin_r (Rmin r g) b).
  pose proof (Rmin_l r g). pose proof (Rmin_r r g). lra.
Qed.

Lemma max3_cases (r g b : R) :
  Rmax (Rmax r g) b = r \/ Rmax (Rmax r g) b = g \/ Rmax (Rmax r g) b = b.
Proof.
  unfold Rmax. destruct (Rle_dec r g); destruct (Rle_dec _ b); auto.
Qed.

Lemma min3_cases (r g b : R) :
  Rmin (Rmin r g) b = r \/ Rmin (Rmin r g) b = g \/ Rmin (Rmin r g) b = b.
Proof.
  unfold Rmin. destruct (Rle_dec r g); destruct (Rle_dec _ b); auto.
Qed.

(** The hue that [hexToHsl] computes lies in [0,360). *)
Lemma hue_range (r g b : R) : 0 <= hsl_h (hslOfRgb (N := R) r g b) < 360.
Proof.
  unfold hslOfRgb.
  cbn [Math_max Math_min nadd nsub nmul ndiv nlt strictEq ofZ jsNaN exact].
  destruct (max3_bounds r g b) as (Hr1 & Hg1 & Hb1).
  destruct (min3_bounds r g b) as (Hr2 & Hg2 & Hb2).
  set (mx := Rmax (Rmax r g) b) in *. set (mn := Rmin (Rmin r g) b) in *.
  unfold Exact.eqb, Exact.ltb. destruct (Req_dec_T mx mn) as [Heq|Hne].
  - cbn [hsl_h]. lra.
  - cbn [hsl_h].
    assert (0 < mx - mn) as Hd by lra.
    destruct (Req_dec_T mx r) as [Er|_].
    + destruct (Rlt_dec g b) as [Hlt|Hge].
      * pose proof (quotient_bounds (g - b) (mx - mn) Hd ltac:(lra)).
        pose proof (quotient_negative (g - b) (mx - mn) Hd ltac:(lra)).
        lra.
      * pose proof (quotient_bounds (g - b) (mx - mn) Hd ltac:(lra)).
        pose proof (quotient_nonneg (g - b) (mx - mn) Hd ltac:(lra)).
        lra.
    + destruct (Req_dec_T mx g) as [Eg|_].
      * pose proof (quotient_bounds (b - r) (mx - mn) Hd ltac:(lra)). lra.
      * destruct (Req_dec_T mx b) as [Eb|_].
        -- pose proof (quotient_bounds (r - g) (mx - mn) Hd ltac:(lra)). lra.
        -- lra.
Qed.

(** Moving a hue by an offset, as [generateScheme] does it, is addition
    modulo 360. *)
Lemma shiftHue_exact (h : R) (degrees : Z) :
  0 <= h < 360 -> (-360 <= degrees)%Z ->
  shiftHue (N := R) h degrees = wrap360 (h + IZR degrees)
  /\ 0 <= shiftHue (N := R) h degrees < 360.
Proof.
  intros Hh Hdeg.
  assert (shiftHue (N := R) h degrees = wrap360 (h + IZR degrees)) as Heq.
  { unfold shiftHue. apply IZR_le in Hdeg.
    destruct (Z.ltb_spec degrees 0) as [Hneg|Hpos].
    - cbn [nadd nsub ofZ exact]. rewrite opp_IZR.
      rewrite exact_rem_nonneg by lra.
      rewrite <- (wrap360_period (h + IZR degrees)). f_equal. lra.
    - apply IZR_le in Hpos. cbn [nadd ofZ exact].
      apply exact_rem_nonneg. lra. }
  split; [exact Heq|]. rewrite Heq. apply wrap360_range.
Qed.

(** ** The HSL round trip in exact arithmetic (C8) *)

(** Decide each [Rmin] and [Rmax] whose order follows from the context. *)
Ltac minmax :=
  repeat match goal with
         | |- context [Rmin ?a ?b] =>
             first [ rewrite (Rmin_left a b) by lra
                   | rewrite (Rmin_right a b) by lra ]
         | |- context [Rmax ?a ?b] =>
             first [ rewrite (Rmax_left a b) by lra
                   | rewrite (Rmax_right a b) by lra ]
         end.

(** The factor [max(min(k - 3, 9 - k, 1), -1)] of [hslToHex] on the four
    stretches of [0,12]. *)
Lemma clamp_floor (k : R) :
  k <= 2 \/ 10 <= k -> Rmax (Rmin (Rmin (k - 3) (9 - k)) 1) (-1) = -1.
Proof.
  intros Hk. destruct (Rle_dec k 6); destruct Hk; minmax; lra.
Qed.

Lemma clamp_rise (k : R) :
  2 <= k <= 4 -> Rmax (Rmin (Rmin (k - 3) (9 - k)) 1) (-1) = k - 3.
Proof.
  intros Hk. destruct (Rle_dec k 6); minmax; lra.
Qed.

Lemma clamp_top (k : R) :
  4 <= k <= 8 -> Rmax (Rmin (Rmin (k - 3) (9 - k)) 1) (-1) = 1.
Proof.
  intros Hk. destruct (Rle_dec k 6); minmax; lra.
Qed.

Lemma clamp_fall (k : R) :
  8 <= k <= 10 -> Rmax (Rmin (Rmin (k - 3) (9 - k)) 1) (-1) = 9 - k.
Proof.
  intros Hk. destruct (Rle_dec k 6); minmax; lra.
Qed.

(** The amplitude [a] of [hslToHex], computed from the saturation and
    lightness of [hexToHsl], is half the chroma [max - min]. *)
Lemma chroma_half (mx mn : R) :
  0 <= mn -> mn < mx -> mx <= 1 ->
  (if Exact.ltb (5 / 10) ((mx + mn) / 2)
   then (mx - mn) / (2 - mx - mn) else (mx - mn) / (mx + mn)) * 100 / 100
  * Rmin ((mx + mn) / 2 * 100 / 100) (1 - (mx + mn) / 2 * 100 / 100)
  = (mx - mn) / 2.
Proof.
  intros H0 Hlt H1. unfold Exact.ltb.
  replace ((mx + mn) / 2 * 100 / 100) with ((mx + mn) / 2) by lra.
  destruct (Rlt_dec (5 / 10) ((mx + mn) / 2)) as [Hl|Hl].
  - rewrite Rmin_right by lra. field. lra.
  - rewrite Rmin_left by lra. field. lra.
Qed.

Ltac rem12 :=
  match goal with
  | |- context [Exact.rem ?x 12] =>
      first [ rewrite (rem12_small x) by lra | rewrite (rem12_wrap x) by lra ]
  end.

Ltac clamp :=
  match goal with
  | |- context [Rmax (Rmin (Rmin (?k - 3) (9 - ?k)) 1) (-1)] =>
      first [ rewrite (clamp_floor k) by (left; lra)
            | rewrite (clamp_floor k) by (right; lra)
            | rewrite (clamp_rise k) by lra
            | rewrite (clamp_top k) by lra
            | rewrite (clamp_fall k) by lra ]
  end.

(** One channel: locate [k], then the stretch it is on; what is left is an
    identity between the channel and the hue quotient [q]. *)
Ltac channel :=
  unfold hslColor;
  cbn [nadd nsub nmul ndiv nrem Math_max Math_min ofZ exact];
  rem12; clamp; nra.

(** The quotient [q = n / d] of a hue formula, with [q * d = n] and
    [-1 <= q <= 1]. *)
Ltac hue_quotient q n d Hd :=
  set (q := n / d);
  let Hq := fresh "Hq" in
  pose proof (quotient_spec n d Hd) as Hq; fold q in Hq;
  let Hqb := fresh "Hqb" in
  pose proof (quotient_bounds n d Hd ltac:(lra)) as Hqb; fold q in Hqb.

(** [hslToHex] recomputes the three channels from the HSL triple of
    [hexToHsl] exactly, for all channels in [0,1]. *)
Lemma hslColor_exact (r g b : R) :
  0 <= r <= 1 -> 0 <= g <= 1 -> 0 <= b <= 1 ->
  let x := hslOfRgb (N := R) r g b in
  let s := (hsl_s x / ofZ 100)%js in
  let l := (hsl_l x / ofZ 100)%js in
  let a := (s * Math_min l (ofZ 1 - l))%js in
  hslColor (hsl_h x) l a (ofZ 0) = r
  /\ hslColor (hsl_h x) l a (ofZ 8) = g
  /\ hslColor (hsl_h x) l a (ofZ 4) = b.
Proof.
  intros Hr Hg Hb. cbv zeta. unfold hslOfRgb, dec.
  cbn [Math_max Math_min nadd nsub nmul ndiv nlt strictEq ofZ jsNaN exact].
  destruct (max3_bounds r g b) as (Hr1 & Hg1 & Hb1).
  destruct (min3_bounds r g b) as (Hr2 & Hg2 & Hb2).
  pose proof (max3_cases r g b) as Hmx.
  pose proof (min3_cases r g b) as Hmn.
  set (mx := Rmax (Rmax r g) b) in *. set (mn := Rmin (Rmin r g) b) in *.
  unfold Exact.eqb. destruct (Req_dec_T mx mn) as [Heq|Hne].
  - (* a grey: no chroma, the lightness is the channel *)
    cbn [hsl_h hsl_s hsl_l].
    replace (0 * 100 / 100) with 0 by lra. rewrite Rmult_0_l.
    unfold hslColor. cbn [nadd nsub nmul ndiv nrem Math_max Math_min ofZ exact].
    rewrite !Rmult_0_l. repeat split; lra.
  - assert (0 < mx - mn) as Hd by lra.
    assert (0 <= mn) as Hmn0 by (destruct Hmn as [E|[E|E]]; rewrite E; lra).
    assert (mx <= 1) as Hmx1 by (destruct Hmx as [E|[E|E]]; rewrite E; lra).
    cbn [hsl_h hsl_s hsl_l].
    rewrite chroma_half by lra.
    replace ((mx + mn) / 2 * 100 / 100) with ((mx + mn) / 2) by lra.
    unfold Exact.ltb.
    destruct (Req_dec_T mx r) as [Er|Nr].
    + (* red is the maximum *)
      hue_quotient q (g - b) (mx - mn) Hd.
      destruct (Rlt_dec g b) as [Hlt|Hge].
      * pose proof (quotient_negative (g - b) (mx - mn) Hd ltac:(lra)) as Hqn.
        fold q in Hqn.
        assert (mn = g) as Emn by (destruct Hmn as [E|[E|E]]; lra).
        split; [|split]; channel.
      * pose proof (quotient_nonneg (g - b) (mx - mn) Hd ltac:(lra)) as Hqp.
        fold q in Hqp.
        assert (mn = b) as Emn by (destruct Hmn as [E|[E|E]]; lra).
        split; [|split]; channel.
    + destruct (Req_dec_T mx g) as [Eg|Ng].
      * (* green is the maximum *)
        hue_quotient q (b - r) (mx - mn) Hd.
        destruct (Rtotal_order b r) as [Hlt|[Heq|Hgt]].
        -- pose proof (quotient_negative (b - r) (mx - mn) Hd ltac:(lra)) as Hqn.
           fold q in Hqn.
           assert (mn = b) as Emn by (destruct Hmn as [E|[E|E]]; lra).
           split; [|split]; channel.
        -- assert (q = 0) as Hq0 by nra.
           assert (mn = b) as Emn by (destruct Hmn as [E|[E|E]]; lra).
           split; [|split]; channel.
        -- pose proof (quotient_nonneg (b - r) (mx - mn) Hd ltac:(lra)) as Hqp.
           fold q in Hqp.
           assert (mn = r) as Emn by (destruct Hmn as [E|[E|E]]; lra).
           split; [|split]; channel.
      * (* blue is the maximum *)
        destruct (Req_dec_T mx b) as [Eb|Nb];
          [|exfalso; destruct Hmx as [E|[E|E]]; contradiction].
        hue_quotient q (r - g) (mx - mn) Hd.
        destruct (Rtotal_order r g) as [Hlt|[Heq|Hgt]].
        -- pose proof (quotient_negative (r - g) (mx - mn) Hd ltac:(lra)) as Hqn.
           fold q in Hqn.
           assert (mn = r) as Emn by (destruct Hmn as [E|[E|E]]; lra).
           split; [|split]; channel.
        -- assert (q = 0) as Hq0 by nra.
           assert (mn = r) as Emn by (destruct Hmn as [E|[E|E]]; lra).
           split; [|split]; channel.
        -- pose proof (quotient_nonneg (r - g) (mx - mn) Hd ltac:(lra)) as Hqp.
           fold q in Hqp.
           assert (mn = g) as Emn by (destruct Hmn as [E|[E|E]]; lra).
           split; [|split]; channel.
Qed.

End ExactArithmetic.

Lemma exact_round_byte (v : Z) :
  Math_round (N := R) (ofZ 255 * (ofZ v / ofZ 255))%js = JInt v.
Proof.
  cbn [Math_round nmul ndiv ofZ exact]. unfold Exact.Math_round. f_equal.
  apply Zfloor_eq. lra.
Qed.

Lemma hexToHsl_bytes {N : Type} `{JsNumber N} (r g b : Z) :
  inByte r -> inByte g -> inByte b ->
  hexToHsl (rgbToHex (JInt r) (JInt g) (JInt b))
  = hslOfRgb (ofZ r / ofZ 255)%js (ofZ g / ofZ 255)%js (ofZ b / ofZ 255)%js.
Proof.
  intros Hr Hg Hb.
  destruct (rgbToHex_bytes r g b Hr Hg Hb) as (_ & Hp & _).
  destruct (hexChannels_valid _ r g b Hp) as (Er & Eg & Eb).
  unfold hexToHsl. rewrite Er, Eg, Eb. reflexivity.
Qed.

Lemma hslToHex_channels {N : Type} `{JsNumber N} (h s l : N) (r g b : Z) :
  inByte r -> inByte g -> inByte b ->
  (let s' := (s / ofZ 100)%js in
   let l' := (l / ofZ 100)%js in
   let a := (s' * Math_min l' (ofZ 1 - l'))%js in
   hslChannel h l' a (ofZ 0) = JInt r
   /\ hslChannel h l' a (ofZ 8) = JInt g
   /\ hslChannel h l' a (ofZ 4) = JInt b) ->
  hslToHex h s l = rgbToHex (JInt r) (JInt g) (JInt b).
Proof.
  intros Hr Hg Hb. cbv zeta. intros (Cr & Cg & Cb).
  unfold hslToHex. rewrite Cr, Cg, Cb.
  destruct (render_byte r Hr) as (c1 & c2 & Er & _ & _ & _ & Pr & _).
  destruct (render_byte g Hg) as (c3 & c4 & Eg & _ & _ & _ & Pg & _).
  destruct (render_byte b Hb) as (c5 & c6 & Eb & _ & _ & _ & Pb & _).
  rewrite rgbToHex_channels, Pr, Pg, Pb, Er, Eg, Eb. reflexivity.
Qed.

(** In exact arithmetic, [hslToHex] undoes [hexToHsl] on the hex string of
    every Color. *)
Lemma roundTrip_hex (r g b : Z) :
  inByte r -> inByte g -> inByte b ->
  let hex := rgbToHex (JInt r) (JInt g) (JInt b) in
  let x := hexToHsl (N := R) hex in
  hslToHex (hsl_h x) (hsl_s x) (hsl_l x) = hex.
Proof.
  intros Hr Hg Hb. cbv zeta.
  rewrite hexToHsl_bytes by assumption.
  apply hslToHex_channels; try assumption. cbv zeta.
  pose proof (hslColor_exact _ _ _ (byte_unit_interval r Hr)
                (byte_unit_interval g Hg) (byte_unit_interval b Hb)) as Hc.
  cbv zeta in Hc. destruct Hc as (Cr & Cg & Cb).
  unfold hslChannel.
  cbn [ofZ ndiv exact] in Cr, Cg, Cb |- *.
  rewrite Cr, Cg, Cb.
  pose proof (exact_round_byte r) as Rr. pose proof (exact_round_byte g) as Rg.
  pose proof (exact_round_byte b) as Rb.
  cbn [ofZ ndiv exact] in Rr, Rg, Rb.
  rewrite Rr, Rg, Rb. auto.
Qed.

(** ** The HSL round trip under rounding (C8) *)

Section Perturbation.

Context {N : Type} `{Accurate N}.

Local Open Scope R_scope.

Lemma accuracy_pos : 0 < accuracy.
Proof. unfold accuracy. lra. Qed.

Lemma approx_weaken (a : N) (x e e' : R) :
  approx a x e -> e <= e' -> approx a x e'.
Proof.
  intros (r & Hr & Hb) He. exists r. split; [exact Hr | lra].
Qed.

Lemma approx_ofZ (z : Z) :
  (-1000 <= z <= 1000)%Z -> approx (ofZ z) (IZR z) 0.
Proof.
  intros Hz. exists (IZR z). split; [apply val_ofZ; exact Hz | lra].
Qed.

Lemma approx_add (a b : N) (x y ea eb : R) :
  approx a x ea -> approx b y eb ->
  -1000 + (ea + eb) <= x + y <= 1000 - (ea + eb) ->
  approx (a + b)%js (x + y) (ea + eb + accuracy).
Proof.
  intros (ra & Va & Ba) (rb & Vb & Bb) Hrange.
  destruct (val_add a b ra rb Va Vb ltac:(lra)) as (r & Vr & Br).
  exists r. split; [exact Vr | lra].
Qed.

Lemma approx_sub (a b : N) (x y ea eb : R) :
  approx a x ea -> approx b y eb ->
  -1000 + (ea + eb) <= x - y <= 1000 - (ea + eb) ->
  approx (a - b)%js (x - y) (ea + eb + accuracy).
Proof.
  intros (ra & Va & Ba) (rb & Vb & Bb) Hrange.
  destruct (val_sub a b ra rb Va Vb ltac:(lra)) as (r & Vr & Br).
  exists r. split; [exact Vr | lra].
Qed.

(** A product: [bx] and [by] bound the exact factors. *)
Lemma approx_mul (a b : N) (x y ea eb bx by' e : R) :
  approx a x ea -> approx b y eb ->
  - bx <= x <= bx -> - by' <= y <= by' ->
  0 <= ea -> 0 <= eb ->
  (bx + ea) * (by' + eb) <= 1000 ->
  bx * eb + by' * ea + ea * eb + accuracy <= e ->
  approx (a * b)%js (x * y) e.
Proof.
  intros (ra & Va & Ba) (rb & Vb & Bb) Hx Hy Hea Heb Hrange He.
  assert (- ((bx + ea) * (by' + eb)) <= ra * rb <= (bx + ea) * (by' + eb)) as Hp.
  { split; nra. }
  destruct (val_mul a b ra rb Va Vb ltac:(lra)) as (r & Vr & Br).
  exists r. split; [exact Vr|].
  assert (- (bx * eb + by' * ea + ea * eb) <= ra * rb - x * y
          <= bx * eb + by' * ea + ea * eb) as Hd.
  { replace (ra * rb - x * y) with ((ra - x) * y + x * (rb - y) + (ra - x) * (rb - y))
      by ring.
    split; nra. }
  lra.
Qed.

(** A quotient by a positive number: [m] is a lower bound of the exact
    divisor and [bq] bounds the exact quotient. *)
Lemma approx_div (a b : N) (x y ea eb bq m e : R) :
  approx a x ea -> approx b y eb ->
  0 < m -> m <= y -> eb < m ->
  - (bq * y) <= x <= bq * y ->
  0 <= ea -> 0 <= eb -> 0 <= bq ->
  ea + bq * eb <= (e - accuracy) * (m - eb) ->
  e <= 100 -> bq <= 800 ->
  approx (a / b)%js (x / y) e.
Proof.
  intros (ra & Va & Ba) (rb & Vb & Bb) Hm Hmy Hebm Hq Hea Heb Hbq He He100 Hbq8.
  assert (0 < y) as Hy by lra.
  assert (0 < rb) as Hrb by lra.
  assert (m - eb <= rb) as Hrb' by lra.
  pose proof accuracy_pos as Hacc.
  assert (- (e - accuracy) <= ra / rb - x / y <= e - accuracy) as Hd.
  { assert (ra / rb - x / y = ((ra - x) - (x / y) * (rb - y)) / rb) as ->
      by (field; lra).
    assert (- bq <= x / y <= bq) as Hxy.
    { split.
      - apply (Rmult_le_reg_r y); [exact Hy|]. unfold Rdiv.
        rewrite Rmult_assoc, Rinv_l by lra. lra.
      - apply (Rmult_le_reg_r y); [exact Hy|]. unfold Rdiv.
        rewrite Rmult_assoc, Rinv_l by lra. lra. }
    set (q := x / y) in *.
    assert (- (ea + bq * eb) <= (ra - x) - q * (rb - y) <= ea + bq * eb) as Hn
      by (split; nra).
    assert (0 <= e - accuracy) as He0.
    { assert (0 <= (e - accuracy) * (m - eb)) by nra.
      assert (0 < m - eb) by lra. nra. }
    split.
    - apply (Rmult_le_reg_r rb); [exact Hrb|]. unfold Rdiv.
      rewrite Rmult_assoc, Rinv_l by lra. nra.
    - apply (Rmult_le_reg_r rb); [exact Hrb|]. unfold Rdiv.
      rewrite Rmult_assoc, Rinv_l by lra. nra. }
  assert (- bq <= x / y <= bq) as Hxy.
  { split.
    - apply (Rmult_le_reg_r y); [exact Hy|]. unfold Rdiv.
      rewrite Rmult_assoc, Rinv_l by lra. lra.
    - apply (Rmult_le_reg_r y); [exact Hy|]. unfold Rdiv.
      rewrite Rmult_assoc, Rinv_l by lra. lra. }
  destruct (val_div a b ra rb Va Vb ltac:(lra) ltac:(lra)) as (r & Vr & Br).
  exists r. split; [exact Vr | lra].
Qed.

Lemma approx_max (a b : N) (x y e : R) :
  approx a x e -> approx b y e -> approx (Math_max a b) (Rmax x y) e.
Proof.
  intros (ra & Va & Ba) (rb & Vb & Bb).
  exists (Rmax ra rb). split; [apply val_max; assumption|].
  unfold Rmax. destruct (Rle_dec x y), (Rle_dec ra rb); lra.
Qed.

Lemma approx_min (a b : N) (x y e : R) :
  approx a x e -> approx b y e -> approx (Math_min a b) (Rmin x y) e.
Proof.
  intros (ra & Va & Ba) (rb & Vb & Bb).
  exists (Rmin ra rb). split; [apply val_min; assumption|].
  unfold Rmin. destruct (Rle_dec x y), (Rle_dec ra rb); lra.
Qed.

Lemma approx_lt_true (a b : N) (x y ea eb : R) :
  approx a x ea -> approx b y eb -> x + ea + eb < y -> (a <? b)%js = true.
Proof.
  intros (ra & Va & Ba) (rb & Vb & Bb) Hlt.
  rewrite (val_lt a b ra rb Va Vb). unfold Exact.ltb.
  destruct (Rlt_dec ra rb); [reflexivity | lra].
Qed.

Lemma approx_lt_false (a b : N) (x y ea eb : R) :
  approx a x ea -> approx b y eb -> y + ea + eb <= x -> (a <? b)%js = false.
Proof.
  intros (ra & Va & Ba) (rb & Vb & Bb) Hle.
  rewrite (val_lt a b ra rb Va Vb). unfold Exact.ltb.
  destruct (Rlt_dec ra rb); [lra | reflexivity].
Qed.

Lemma approx_eq_false (a b : N) (x y ea eb : R) :
  approx a x ea -> approx b y eb -> x + ea + eb < y \/ y + ea + eb < x ->
  (a === b)%js = false.
Proof.
  intros (ra & Va & Ba) (rb & Vb & Bb) Hne.
  rewrite (val_eq a b ra rb Va Vb). unfold Exact.eqb.
  destruct (Req_dec_T ra rb); [lra | reflexivity].
Qed.

Lemma approx_round (a : N) (x e : R) (v : Z) :
  approx a x e -> (0 <= v <= 999)%Z ->
  IZR v - / 2 + e <= x -> x + e < IZR v + / 2 ->
  Math_round a = JInt v.
Proof.
  intros (r & Vr & Br) Hv Hlo Hhi.
  assert (0 <= IZR v <= 999) as Hv'.
  { split; [apply (IZR_le 0) | apply (IZR_le v 999)]; lia. }
  rewrite (val_round a r Vr) by lra.
  f_equal. apply Zfloor_eq. lra.
Qed.

End Perturbation.

(** Decide the comparisons of nested [Rmin] and [Rmax], innermost first. *)
Ltac split_minmax :=
  unfold Rmax, Rmin;
  repeat match goal with
         | |- context [Rle_dec ?a ?b] =>
             lazymatch a with
             | context [Rle_dec _ _] => fail
             | _ => lazymatch b with
                    | context [Rle_dec _ _] => fail
                    | _ => destruct (Rle_dec a b)
                    end
             end
         end.

Section HueFactor.

Local Open Scope R_scope.

(** The clamp of [hslToHex] on a position already reduced modulo 12. *)
Lemma clamp_lipschitz (z w : R) :
  z <= w ->
  - (w - z) <= Rmax (Rmin (Rmin (z - 3) (9 - z)) 1) (-1)
               - Rmax (Rmin (Rmin (w - 3) (9 - w)) 1) (-1) <= w - z.
Proof.
  intros Hzw. split_minmax; lra.
Qed.

Lemma rem12_below (x : R) : -12 < x < 12 -> Exact.rem x 12 = x.
Proof.
  intros Hx. unfold Exact.rem, Exact.trunc.
  destruct (Rle_dec 0 (x / 12)) as [Hp|Hn].
  - rewrite (Zfloor_eq 0); [lra|]. cbn. lra.
  - unfold Zceil. rewrite (Zfloor_eq 0); [cbn; lra|]. cbn. lra.
Qed.

Lemma rem12_above (x : R) : 12 <= x < 24 -> Exact.rem x 12 = x - 12.
Proof.
  intros Hx. unfold Exact.rem, Exact.trunc.
  destruct (Rle_dec 0 (x / 12)) as [_|Hn]; [|exfalso; apply Hn; lra].
  rewrite (Zfloor_eq 1); [lra|]. cbn. lra.
Qed.

(** Across the wrap at 12 as well, the factor moves no faster than the
    position. *)
Lemma hueFactor_lipschitz (x y : R) :
  -2 <= x -> x <= y -> y <= 22 ->
  - (y - x) <= hueFactor x - hueFactor y <= y - x.
Proof.
  intros Hx Hxy Hy. unfold hueFactor.
  destruct (Rlt_dec y 12) as [Hy12|Hy12].
  - rewrite (rem12_below x), (rem12_below y) by lra.
    apply clamp_lipschitz. exact Hxy.
  - destruct (Rlt_dec x 12) as [Hx12|Hx12].
    + rewrite (rem12_below x), (rem12_above y) by lra.
      pose proof (clamp_lipschitz x 12 ltac:(lra)) as H1.
      pose proof (clamp_lipschitz 0 (y - 12) ltac:(lra)) as H2.
      assert (Rmax (Rmin (Rmin (12 - 3) (9 - 12)) 1) (-1) = -1) as E12.
      { unfold Rmax, Rmin.
        split_minmax; lra. }
      assert (Rmax (Rmin (Rmin (0 - 3) (9 - 0)) 1) (-1) = -1) as E0.
      { unfold Rmax, Rmin.
        split_minmax; lra. }
      rewrite E12 in H1. rewrite E0 in H2. lra.
    + rewrite (rem12_above x), (rem12_above y) by lra.
      pose proof (clamp_lipschitz (x - 12) (y - 12) ltac:(lra)) as H1. lra.
Qed.

Lemma hueFactor_range (x : R) : -1 <= hueFactor x <= 1.
Proof.
  unfold hueFactor, Rmax, Rmin.
  split_minmax; lra.
Qed.

Lemma Rmax_bytes (a b : Z) :
  Rmax (IZR a / 255) (IZR b / 255) = IZR (Z.max a b) / 255.
Proof.
  destruct (Z.max_spec a b) as [[Hlt ->]|[Hle ->]].
  - apply Rmax_right. apply IZR_lt in Hlt. lra.
  - apply Rmax_left. apply IZR_le in Hle. lra.
Qed.

Lemma Rmin_bytes (a b : Z) :
  Rmin (IZR a / 255) (IZR b / 255) = IZR (Z.min a b) / 255.
Proof.
  destruct (Z.min_spec a b) as [[Hlt ->]|[Hle ->]].
  - apply Rmin_left. apply IZR_lt in Hlt. lra.
  - apply Rmin_right. apply IZR_le in Hle. lra.
Qed.

(** Saturation and lightness of [hexToHsl] in exact arithmetic are
    percentages. *)
Lemma exact_sl_range (r g b : R) :
  0 <= r <= 1 -> 0 <= g <= 1 -> 0 <= b <= 1 ->
  0 <= hsl_s (hslOfRgb (N := R) r g b) <= 100
  /\ 0 <= hsl_l (hslOfRgb (N := R) r g b) <= 100.
Proof.
  intros Hr Hg Hb. unfold hslOfRgb, dec.
  cbn [Math_max Math_min nadd nsub nmul ndiv nlt strictEq ofZ jsNaN exact].
  destruct (max3_bounds r g b) as (Hr1 & Hg1 & Hb1).
  destruct (min3_bounds r g b) as (Hr2 & Hg2 & Hb2).
  pose proof (max3_cases r g b) as Hmx.
  pose proof (min3_cases r g b) as Hmn.
  set (mx := Rmax (Rmax r g) b) in *. set (mn := Rmin (Rmin r g) b) in *.
  assert (0 <= mn) as Hmn0 by (destruct Hmn as [E|[E|E]]; rewrite E; lra).
  assert (mx <= 1) as Hmx1 by (destruct Hmx as [E|[E|E]]; rewrite E; lra).
  unfold Exact.eqb, Exact.ltb. destruct (Req_dec_T mx mn) as [Heq|Hne].
  - cbn [hsl_s hsl_l]. lra.
  - cbn [hsl_s hsl_l]. split; [|lra].
    assert (mn < mx) as Hlt by lra.
    destruct (Rlt_dec (5 / 10) ((mx + mn) / 2)) as [Hl|Hl].
    + assert (0 <= (mx - mn) / (2 - mx - mn) <= 1); [|lra].
      split.
      * apply Rmult_le_pos; [lra|]. left. apply Rinv_0_lt_compat. lra.
      * apply (Rmult_le_reg_r (2 - mx - mn)); [lra|].
        unfold Rdiv. rewrite Rmult_assoc, Rinv_l by lra. lra.
    + assert (0 <= (mx - mn) / (mx + mn) <= 1); [|lra].
      split.
      * apply Rmult_le_pos; [lra|]. left. apply Rinv_0_lt_compat. lra.
      * apply (Rmult_le_reg_r (mx + mn)); [lra|].
        unfold Rdiv. rewrite Rmult_assoc, Rinv_l by lra. lra.
Qed.

End HueFactor.

Section RoundTrip.

Context {N : Type} `{Accurate N}.

Local Open Scope R_scope.

Lemma approx_val (a : N) (x : R) : val a = Some x -> approx a x 0.
Proof. intros Ha. exists x. split; [exact Ha | lra]. Qed.

(** A channel divided by 255. *)
Lemma chan_approx (c : Z) :
  inByte c -> approx (ofZ c / ofZ 255)%js (IZR c / 255) accuracy.
Proof.
  intros [Hlo Hhi]. apply IZR_le in Hlo, Hhi.
  pose proof accuracy_pos.
  apply (approx_div _ _ (IZR c) 255 0 0 1 255).
  - apply approx_ofZ. apply le_IZR in Hlo, Hhi. lia.
  - apply (approx_ofZ 255). lia.
  - lra.
  - lra.
  - lra.
  - lra.
  - lra.
  - lra.
  - lra.
  - lra.
  - unfold accuracy. lra.
  - lra.
Qed.

(** What channels denote is ordered as the channels are. *)
Lemma chan_le (a b : Z) (ra rb : R) :
  inByte a -> inByte b -> (a <= b)%Z ->
  val (ofZ a / ofZ 255)%js = Some ra -> val (ofZ b / ofZ 255)%js = Some rb ->
  ra <= rb.
Proof.
  intros Ha Hb Hab Va Vb.
  destruct (Z.eq_dec a b) as [->|Hne].
  - rewrite Va in Vb. injection Vb as ->. lra.
  - destruct (chan_approx a Ha) as (ra' & Va' & Ba).
    destruct (chan_approx b Hb) as (rb' & Vb' & Bb).
    rewrite Va in Va'. injection Va' as <-.
    rewrite Vb in Vb'. injection Vb' as <-.
    assert (IZR a + 1 <= IZR b) as Hgap.
    { rewrite <- (plus_IZR a 1). apply IZR_le. lia. }
    unfold accuracy in *. lra.
Qed.

Lemma chan_lt (a b : Z) (ra rb : R) :
  inByte a -> inByte b -> (a < b)%Z ->
  val (ofZ a / ofZ 255)%js = Some ra -> val (ofZ b / ofZ 255)%js = Some rb ->
  ra < rb.
Proof.
  intros Ha Hb Hab Va Vb.
  destruct (chan_approx a Ha) as (ra' & Va' & Ba).
  destruct (chan_approx b Hb) as (rb' & Vb' & Bb).
  rewrite Va in Va'. injection Va' as <-.
  rewrite Vb in Vb'. injection Vb' as <-.
  assert (IZR a + 1 <= IZR b) as Hgap.
  { rewrite <- (plus_IZR a 1). apply IZR_le. lia. }
  unfold accuracy in *. lra.
Qed.

(** One channel of [hslToHex]: the computed colour value is close to the
    exact one. *)
Lemma hslColor_approx (h l a : N) (h0 l0 a0 : R) (n : Z) :
  approx h h0 (/ 1000000) ->
  approx l l0 (2 / 10000000000) ->
  approx a a0 (3 / 100000000) ->
  0 <= h0 < 360 -> 0 <= l0 <= 1 -> 0 <= a0 <= 1 -> (0 <= n <= 8)%Z ->
  approx (hslColor h l a (ofZ n))
         (l0 - a0 * hueFactor (IZR n + h0 / 30)) (2 / 10000000).
Proof.
  intros Hh Hl Ha Rh Rl Ra Hn.
  pose proof accuracy_pos as Hacc.
  assert (0 <= IZR n <= 8) as Hn'.
  { split; [apply (IZR_le 0) | apply (IZR_le n 8)]; lia. }
  assert (approx (h / ofZ 30)%js (h0 / 30) (4 / 100000000)) as Hdiv.
  { apply (approx_div _ _ h0 30 (/ 1000000) 0 12 30);
      try exact Hh; try (apply (approx_ofZ 30); lia);
      unfold accuracy; lra. }
  assert (approx (ofZ n + h / ofZ 30)%js (IZR n + h0 / 30)
                 (0 + 4 / 100000000 + accuracy)) as Hk.
  { apply approx_add; [apply approx_ofZ; lia | exact Hdiv |].
    unfold accuracy. lra. }
  destruct Hk as (kr & Vk & Bk).
  assert (-12 < kr < 24) as Hkr by (unfold accuracy in Bk; lra).
  pose proof (val_rem _ kr Vk Hkr) as Vrem.
  set (kk := Exact.rem kr 12) in *.
  assert (-12 < kk < 12) as Hkk.
  { unfold kk. destruct (Rlt_dec kr 12).
    - rewrite rem12_below by lra. lra.
    - rewrite rem12_above by lra. lra. }
  assert (approx (((ofZ n + h / ofZ 30) mod ofZ 12) - ofZ 3)%js (kk - 3)
                 (0 + 0 + accuracy)) as H3.
  { apply approx_sub; [apply approx_val; exact Vrem | apply (approx_ofZ 3); lia |].
    lra. }
  assert (approx (ofZ 9 - ((ofZ n + h / ofZ 30) mod ofZ 12))%js (9 - kk)
                 (0 + 0 + accuracy)) as H9.
  { apply approx_sub; [apply (approx_ofZ 9); lia | apply approx_val; exact Vrem |].
    lra. }
  pose proof (approx_min _ _ _ _ _ H3 H9) as Hm1.
  assert (approx (ofZ 1) 1 (0 + 0 + accuracy)) as H1.
  { apply (approx_weaken _ _ 0); [apply (approx_ofZ 1); lia | lra]. }
  pose proof (approx_min _ _ _ _ _ Hm1 H1) as Hm2.
  assert (approx (ofZ (-1)) (-1) (0 + 0 + accuracy)) as Hneg.
  { apply (approx_weaken _ _ 0); [apply (approx_ofZ (-1)); lia | lra]. }
  pose proof (approx_max _ _ _ _ _ Hm2 Hneg) as Ht.
  change (Rmax (Rmin (Rmin (kk - 3) (9 - kk)) 1) (-1)) with (hueFactor kr) in Ht.
  assert (approx (Math_max
                    (Math_min
                       (Math_min (((ofZ n + h / ofZ 30) mod ofZ 12) - ofZ 3)%js
                                 (ofZ 9 - ((ofZ n + h / ofZ 30) mod ofZ 12))%js)
                       (ofZ 1)) (ofZ (-1)))
                 (hueFactor (IZR n + h0 / 30)) (6 / 100000000)) as Ht0.
  { destruct Ht as (t & Vt & Bt). exists t. split; [exact Vt|].
    unfold accuracy in *.
    destruct (Rle_dec kr (IZR n + h0 / 30)) as [Hle|Hgt].
    - pose proof (hueFactor_lipschitz kr (IZR n + h0 / 30)
                    ltac:(lra) Hle ltac:(lra)). lra.
    - pose proof (hueFactor_lipschitz (IZR n + h0 / 30) kr
                    ltac:(lra) ltac:(lra) ltac:(lra)). lra. }
  pose proof (hueFactor_range (IZR n + h0 / 30)) as Rt.
  unfold hslColor. cbv zeta.
  apply (approx_weaken _ _ (2 / 10000000000 + / 10000000 + accuracy));
    [|unfold accuracy; lra].
  apply approx_sub; [exact Hl | |].
  - apply (approx_mul _ _ a0 (hueFactor (IZR n + h0 / 30))
             (3 / 100000000) (6 / 100000000) 1 1);
      try assumption; unfold accuracy; try lra.
  - assert (-1 <= a0 * hueFactor (IZR n + h0 / 30) <= 1) by (split; nra).
    lra.
Qed.

(** The lightness and the amplitude that [hslToHex] computes first. *)
Lemma amplitude_approx (s l : N) (S0 L0 : R) :
  approx s S0 (/ 1000000) -> approx l L0 (/ 1000000000) ->
  0 <= S0 <= 100 -> 0 <= L0 <= 100 ->
  approx (l / ofZ 100)%js (L0 / 100) (2 / 10000000000)
  /\ approx ((s / ofZ 100) * Math_min (l / ofZ 100) (ofZ 1 - l / ofZ 100))%js
            (S0 / 100 * Rmin (L0 / 100) (1 - L0 / 100)) (3 / 100000000).
Proof.
  intros Hs Hl RS RL.
  pose proof accuracy_pos as Hacc.
  assert (approx (l / ofZ 100)%js (L0 / 100) (2 / 10000000000)) as Hl'.
  { apply (approx_div _ _ L0 100 (/ 1000000000) 0 1 100);
      try exact Hl; try (apply (approx_ofZ 100); lia);
      unfold accuracy; lra. }
  split; [exact Hl'|].
  assert (approx (s / ofZ 100)%js (S0 / 100) (2 / 100000000)) as Hs'.
  { apply (approx_div _ _ S0 100 (/ 1000000) 0 1 100);
      try exact Hs; try (apply (approx_ofZ 100); lia);
      unfold accuracy; lra. }
  assert (approx (ofZ 1 - l / ofZ 100)%js (1 - L0 / 100)
                 (0 + 2 / 10000000000 + accuracy)) as H1l.
  { apply approx_sub; [apply (approx_ofZ 1); lia | exact Hl' |].
    unfold accuracy. lra. }
  assert (approx (Math_min (l / ofZ 100) (ofZ 1 - l / ofZ 100))%js
                 (Rmin (L0 / 100) (1 - L0 / 100))
                 (0 + 2 / 10000000000 + accuracy)) as Hmin.
  { apply approx_min; [|exact H1l].
    apply (approx_weaken _ _ _ _ Hl'). lra. }
  assert (0 <= Rmin (L0 / 100) (1 - L0 / 100) <= 1) as Rmin01.
  { unfold Rmin. destruct (Rle_dec (L0 / 100) (1 - L0 / 100)); lra. }
  apply (approx_mul _ _ (S0 / 100) (Rmin (L0 / 100) (1 - L0 / 100))
           (2 / 100000000) (0 + 2 / 10000000000 + accuracy) 1 1);
    try assumption; unfold accuracy; try lra.
Qed.

(** Lightness: [(max + min) / 2], and its percentage. *)
Lemma lightness_approx (mx mn : N) (MX0 MN0 : R) :
  approx mx MX0 accuracy -> approx mn MN0 accuracy ->
  0 <= MN0 -> MN0 <= MX0 -> MX0 <= 1 ->
  approx ((mx + mn) / ofZ 2)%js ((MX0 + MN0) / 2) (3 * accuracy)
  /\ approx ((mx + mn) / ofZ 2 * ofZ 100)%js ((MX0 + MN0) / 2 * 100)
            (/ 1000000000).
Proof.
  intros Hmx Hmn Hmn0 Hle Hmx1.
  pose proof accuracy_pos as Hacc.
  assert (approx (mx + mn)%js (MX0 + MN0) (accuracy + accuracy + accuracy)) as Hsum.
  { apply approx_add; try assumption. unfold accuracy. lra. }
  assert (approx ((mx + mn) / ofZ 2)%js ((MX0 + MN0) / 2) (3 * accuracy)) as Hl.
  { apply (approx_div _ _ (MX0 + MN0) 2 (accuracy + accuracy + accuracy) 0 1 2);
      try exact Hsum; try (apply (approx_ofZ 2); lia);
      unfold accuracy; lra. }
  split; [exact Hl|].
  apply (approx_mul _ _ ((MX0 + MN0) / 2) 100 (3 * accuracy) 0 1 100);
    try exact Hl; try (apply (approx_ofZ 100); lia);
    unfold accuracy; lra.
Qed.

(** Saturation.  Where the lightness is exactly one half the computed
    comparison may go either way; both quotients are the same there. *)
Lemma saturation_approx (mx mn : N) (MX0 MN0 : R) :
  approx mx MX0 accuracy -> approx mn MN0 accuracy ->
  0 <= MN0 -> MN0 + / 255 <= MX0 -> MX0 <= 1 ->
  MX0 + MN0 = 1 \/ MX0 + MN0 <= 1 - / 255 \/ 1 + / 255 <= MX0 + MN0 ->
  approx ((if (dec 5 10 <? (mx + mn) / ofZ 2)%js
           then (mx - mn) / (ofZ 2 - mx - mn)
           else (mx - mn) / (mx + mn)) * ofZ 100)%js
         ((if Exact.ltb (5 / 10) ((MX0 + MN0) / 2)
           then (MX0 - MN0) / (2 - MX0 - MN0)
           else (MX0 - MN0) / (MX0 + MN0)) * 100)
         (/ 1000000).
Proof.
  intros Hmx Hmn Hmn0 Hgap Hmx1 Htie.
  pose proof accuracy_pos as Hacc.
  destruct (lightness_approx mx mn MX0 MN0 Hmx Hmn Hmn0 ltac:(lra) Hmx1) as [Hl _].
  assert (approx (dec 5 10) (5 / 10) accuracy) as Hhalf.
  { unfold dec.
    apply (approx_div _ _ 5 10 0 0 1 10);
      try (apply (approx_ofZ 5); lia); try (apply (approx_ofZ 10); lia);
      unfold accuracy; lra. }
  assert (approx (mx - mn)%js (MX0 - MN0) (accuracy + accuracy + accuracy)) as Hd.
  { apply approx_sub; try assumption. unfold accuracy. lra. }
  assert (approx (mx + mn)%js (MX0 + MN0) (accuracy + accuracy + accuracy)) as Hsum.
  { apply approx_add; try assumption. unfold accuracy. lra. }
  assert (approx (ofZ 2 - mx - mn)%js (2 - MX0 - MN0)
                 (0 + accuracy + accuracy + accuracy + accuracy)) as Hden.
  { apply approx_sub; [|exact Hmn|unfold accuracy; lra].
    apply approx_sub; [apply (approx_ofZ 2); lia | exact Hmx |].
    unfold accuracy. lra. }
  (* the two quotients *)
  assert (approx ((mx - mn) / (ofZ 2 - mx - mn))%js
                 ((MX0 - MN0) / (2 - MX0 - MN0)) (2 / 1000000000)) as Qa.
  { apply (approx_div _ _ (MX0 - MN0) (2 - MX0 - MN0)
             (accuracy + accuracy + accuracy)
             (0 + accuracy + accuracy + accuracy + accuracy) 1 (/ 255));
      try exact Hd; try exact Hden; unfold accuracy; lra. }
  assert (approx ((mx - mn) / (mx + mn))%js
                 ((MX0 - MN0) / (MX0 + MN0)) (2 / 1000000000)) as Qb.
  { apply (approx_div _ _ (MX0 - MN0) (MX0 + MN0)
             (accuracy + accuracy + accuracy)
             (accuracy + accuracy + accuracy) 1 (/ 255));
      try exact Hd; try exact Hsum; unfold accuracy; lra. }
  assert (forall q : N, forall q0 : R,
             approx q q0 (2 / 1000000000) -> 0 <= q0 <= 1 ->
             approx (q * ofZ 100)%js (q0 * 100) (/ 1000000)) as Hpct.
  { intros q q0 Hq Rq.
    apply (approx_mul _ _ q0 100 (2 / 1000000000) 0 1 100);
      try exact Hq; try (apply (approx_ofZ 100); lia);
      unfold accuracy; lra. }
  assert (0 <= (MX0 - MN0) / (2 - MX0 - MN0) <= 1) as Ra.
  { split.
    - apply Rmult_le_pos; [lra|]. left. apply Rinv_0_lt_compat. lra.
    - apply (Rmult_le_reg_r (2 - MX0 - MN0)); [lra|].
      unfold Rdiv. rewrite Rmult_assoc, Rinv_l by lra. lra. }
  assert (0 <= (MX0 - MN0) / (MX0 + MN0) <= 1) as Rb.
  { split.
    - apply Rmult_le_pos; [lra|]. left. apply Rinv_0_lt_compat. lra.
    - apply (Rmult_le_reg_r (MX0 + MN0)); [lra|].
      unfold Rdiv. rewrite Rmult_assoc, Rinv_l by lra. lra. }
  unfold Exact.ltb.
  destruct Htie as [Heq|[Hlow|Hhigh]].
  - (* lightness one half: the exact side divides by max + min = 1 *)
    destruct (Rlt_dec (5 / 10) ((MX0 + MN0) / 2)) as [Habs|_]; [lra|].
    destruct (dec 5 10 <? (mx + mn) / ofZ 2)%js.
    + replace ((MX0 - MN0) / (MX0 + MN0)) with ((MX0 - MN0) / (2 - MX0 - MN0))
        by (f_equal; lra).
      apply Hpct; assumption.
    + apply Hpct; assumption.
  - destruct (Rlt_dec (5 / 10) ((MX0 + MN0) / 2)) as [Habs|_]; [lra|].
    rewrite (approx_lt_false _ _ _ _ _ _ Hhalf Hl) by (unfold accuracy; lra).
    apply Hpct; assumption.
  - destruct (Rlt_dec (5 / 10) ((MX0 + MN0) / 2)) as [_|Habs]; [|lra].
    rewrite (approx_lt_true _ _ _ _ _ _ Hhalf Hl) by (unfold accuracy; lra).
    apply Hpct; assumption.
Qed.

(** Hue, for the numerator [x - y] and the offset [c] of one case. *)
Lemma hue_approx (x y d : N) (x0 y0 d0 : R) (c : Z) :
  approx x x0 accuracy -> approx y y0 accuracy ->
  approx d d0 (accuracy + accuracy + accuracy) ->
  / 255 <= d0 -> d0 <= 1 -> - d0 <= x0 - y0 <= d0 -> (0 <= c <= 6)%Z ->
  approx (((x - y) / d + ofZ c) / ofZ 6 * ofZ 360)%js
         (((x0 - y0) / d0 + IZR c) / 6 * 360) (/ 1000000).
Proof.
  intros Hx Hy Hd Hd0 Hd1 Hq Hc.
  pose proof accuracy_pos as Hacc.
  assert (0 <= IZR c <= 6) as Hc'.
  { split; [apply (IZR_le 0) | apply (IZR_le c 6)]; lia. }
  assert (approx (x - y)%js (x0 - y0) (accuracy + accuracy + accuracy)) as Hnum.
  { apply approx_sub; try assumption. unfold accuracy. lra. }
  assert (approx ((x - y) / d)%js ((x0 - y0) / d0) (2 / 1000000000)) as Hquot.
  { apply (approx_div _ _ (x0 - y0) d0 (accuracy + accuracy + accuracy)
             (accuracy + accuracy + accuracy) 1 (/ 255));
      try exact Hnum; try exact Hd; unfold accuracy; lra. }
  assert (-1 <= (x0 - y0) / d0 <= 1) as Rq.
  { split.
    - apply (Rmult_le_reg_r d0); [lra|].
      unfold Rdiv. rewrite Rmult_assoc, Rinv_l by lra. lra.
    - apply (Rmult_le_reg_r d0); [lra|].
      unfold Rdiv. rewrite Rmult_assoc, Rinv_l by lra. lra. }
  assert (approx ((x - y) / d + ofZ c)%js ((x0 - y0) / d0 + IZR c)
                 (2 / 1000000000 + 0 + accuracy)) as Hsum.
  { apply approx_add; [exact Hquot | apply approx_ofZ; lia |].
    unfold accuracy. lra. }
  assert (approx (((x - y) / d + ofZ c) / ofZ 6)%js
                 (((x0 - y0) / d0 + IZR c) / 6) (/ 1000000000)) as Hsix.
  { apply (approx_div _ _ ((x0 - y0) / d0 + IZR c) 6
             (2 / 1000000000 + 0 + accuracy) 0 2 6);
      try exact Hsum; try (apply (approx_ofZ 6); lia);
      unfold accuracy; lra. }
  apply (approx_mul _ _ (((x0 - y0) / d0 + IZR c) / 6) 360
           (/ 1000000000) 0 2 360);
    try exact Hsix; try (apply (approx_ofZ 360); lia);
    unfold accuracy; lra.
Qed.

End RoundTrip.

Section RoundTrip2.

Context {N : Type} `{Accurate N}.

Local Open Scope R_scope.

(** Decide the comparisons of the exact instance that the context settles. *)
Ltac decide_exact :=
  unfold Exact.eqb, Exact.ltb;
  repeat match goal with
         | |- context [Req_dec_T ?a ?b] =>
             destruct (Req_dec_T a b); [try (exfalso; lra) | try (exfalso; lra)]
         | |- context [Rlt_dec ?a ?b] =>
             destruct (Rlt_dec a b); [try (exfalso; lra) | try (exfalso; lra)]
         end.

(** [hexToHsl] below its parsing lines: hue, saturation and lightness
    computed from the three channels are close to the exact ones. *)
Lemma hslOfRgb_approx (r g b : Z) :
  inByte r -> inByte g -> inByte b ->
  let X := hslOfRgb (N := N) (ofZ r / ofZ 255)%js (ofZ g / ofZ 255)%js
             (ofZ b / ofZ 255)%js in
  let X0 := hslOfRgb (N := R) (IZR r / 255) (IZR g / 255) (IZR b / 255) in
  approx (hsl_h X) (hsl_h X0) (/ 1000000)
  /\ approx (hsl_s X) (hsl_s X0) (/ 1000000)
  /\ approx (hsl_l X) (hsl_l X0) (/ 1000000000).
Proof.
  intros Hr Hg Hb. cbv zeta.
  pose proof accuracy_pos as Hacc.
  pose proof (chan_approx r Hr) as AR.
  pose proof (chan_approx g Hg) as AG.
  pose proof (chan_approx b Hb) as AB.
  destruct (chan_approx r Hr) as (R1 & VR & BR).
  destruct (chan_approx g Hg) as (G1 & VG & BG).
  destruct (chan_approx b Hb) as (B1 & VB & BB).
  set (cr := (ofZ r / ofZ 255)%js) in *.
  set (cg := (ofZ g / ofZ 255)%js) in *.
  set (cb := (ofZ b / ofZ 255)%js) in *.
  set (mxz := Z.max (Z.max r g) b).
  set (mnz := Z.min (Z.min r g) b).
  assert (Rmax (Rmax (IZR r / 255) (IZR g / 255)) (IZR b / 255) = IZR mxz / 255)
    as EMX by (rewrite !Rmax_bytes; reflexivity).
  assert (Rmin (Rmin (IZR r / 255) (IZR g / 255)) (IZR b / 255) = IZR mnz / 255)
    as EMN by (rewrite !Rmin_bytes; reflexivity).
  assert (approx (Math_max (Math_max cr cg) cb) (IZR mxz / 255) accuracy) as AMX.
  { rewrite <- EMX. apply approx_max; [apply approx_max|]; assumption. }
  assert (approx (Math_min (Math_min cr cg) cb) (IZR mnz / 255) accuracy) as AMN.
  { rewrite <- EMN. apply approx_min; [apply approx_min|]; assumption. }
  assert (val (Math_max (Math_max cr cg) cb) = Some (Rmax (Rmax R1 G1) B1)) as VMX.
  { apply val_max; [apply val_max|]; assumption. }
  assert (val (Math_min (Math_min cr cg) cb) = Some (Rmin (Rmin R1 G1) B1)) as VMN.
  { apply val_min; [apply val_min|]; assumption. }
  unfold inByte in Hr, Hg, Hb.
  assert (0 <= mnz /\ mnz <= mxz /\ mxz <= 255)%Z as (Zmn & Zle & Zmx)
    by (unfold mxz, mnz; lia).
  assert (0 <= IZR mnz) as Rmn0 by (apply (IZR_le 0); lia).
  assert (IZR mxz <= 255) as Rmx1 by (apply (IZR_le mxz 255); lia).
  assert (IZR mnz <= IZR mxz) as Rle by (apply IZR_le; lia).
  destruct (lightness_approx _ _ _ _ AMX AMN ltac:(lra) ltac:(lra) ltac:(lra))
    as [_ HL].
  unfold hslOfRgb. cbv zeta.
  cbn [Math_max Math_min nadd nsub nmul ndiv nlt strictEq ofZ jsNaN exact].
  rewrite !exact_dec. rewrite !EMX, !EMN.
  destruct (Z.eq_dec mxz mnz) as [Egrey|Hcol].
  - (* a grey *)
    assert (r = g /\ g = b) as [<- <-] by (unfold mxz, mnz in Egrey; lia).
    subst cr cg cb.
    rewrite VG in VR. injection VR as ->.
    rewrite VB in VG. injection VG as ->.
    rewrite (val_eq _ _ _ _ VMX VMN).
    replace (Exact.eqb (Rmax (Rmax R1 R1) R1) (Rmin (Rmin R1 R1) R1)) with true.
    2:{ unfold Exact.eqb, Rmax, Rmin.
        repeat match goal with
               | |- context [Rle_dec ?a ?b] => destruct (Rle_dec a b)
               end;
          destruct (Req_dec_T R1 R1); congruence. }
    rewrite Egrey. unfold Exact.eqb.
    destruct (Req_dec_T (IZR mnz / 255) (IZR mnz / 255)) as [_|Habs];
      [|exfalso; apply Habs; reflexivity].
    cbn [hsl_h hsl_s hsl_l].
    rewrite Egrey in HL.
    split; [|split; [|exact HL]].
    + apply (approx_mul _ _ 0 360 0 0 1 360);
        try (apply (approx_ofZ 0); lia); try (apply (approx_ofZ 360); lia);
        unfold accuracy; lra.
    + apply (approx_mul _ _ 0 100 0 0 1 100);
        try (apply (approx_ofZ 0); lia); try (apply (approx_ofZ 100); lia);
        unfold accuracy; lra.
  - (* a colour with chroma *)
    assert (IZR mnz + 1 <= IZR mxz) as Rgap.
    { rewrite <- (plus_IZR mnz 1). apply IZR_le. lia. }
    rewrite (approx_eq_false _ _ _ _ _ _ AMX AMN)
      by (right; unfold accuracy; lra).
    assert (Exact.eqb (IZR mxz / 255) (IZR mnz / 255) = false) as ->.
    { unfold Exact.eqb. destruct (Req_dec_T _ _); [lra | reflexivity]. }
    cbn [hsl_h hsl_s hsl_l].
    assert (approx (Math_max (Math_max cr cg) cb - Math_min (Math_min cr cg) cb)%js
                   (IZR mxz / 255 - IZR mnz / 255)
                   (accuracy + accuracy + accuracy)) as AD.
    { apply approx_sub; try assumption. unfold accuracy. lra. }
    split; [|split; [|exact HL]].
    + (* hue *)
      assert (IZR mnz <= IZR r <= IZR mxz /\ IZR mnz <= IZR g <= IZR mxz
              /\ IZR mnz <= IZR b <= IZR mxz) as (Cr & Cg & Cb).
      { repeat split; apply IZR_le; unfold mxz, mnz; lia. }
      assert (forall x : R, Exact.eqb x x = true) as Erefl.
      { intros x. unfold Exact.eqb. destruct (Req_dec_T x x); congruence. }
      destruct (Z.eq_dec r mxz) as [Er|Nr].
      * (* red is the maximum *)
        pose proof (chan_le g r G1 R1 ltac:(unfold inByte; lia)
                      ltac:(unfold inByte; lia) ltac:(unfold mxz in Er; lia) VG VR) as O1.
        pose proof (chan_le b r B1 R1 ltac:(unfold inByte; lia)
                      ltac:(unfold inByte; lia) ltac:(unfold mxz in Er; lia) VB VR) as O2.
        rewrite (val_eq _ _ _ _ VMX VR).
        replace (Rmax (Rmax R1 G1) B1) with R1
          by (rewrite (Rmax_left R1 G1) by lra; rewrite Rmax_left by lra; reflexivity).
        rewrite <- Er. rewrite !Erefl.
        rewrite (val_lt _ _ _ _ VG VB).
        destruct (Z.lt_ge_cases g b) as [Hlt|Hge].
        -- pose proof (chan_lt g b G1 B1 ltac:(unfold inByte; lia)
                         ltac:(unfold inByte; lia) Hlt VG VB) as O3.
           apply IZR_lt in Hlt.
           unfold Exact.ltb.
           destruct (Rlt_dec G1 B1) as [_|Habs]; [|lra].
           destruct (Rlt_dec (IZR g / 255) (IZR b / 255)) as [_|Habs]; [|lra].
           rewrite Er.
           apply (hue_approx cg cb _ (IZR g / 255) (IZR b / 255)
                    (IZR mxz / 255 - IZR mnz / 255) 6);
             try assumption; try lra; try lia.
        -- pose proof (chan_le b g B1 G1 ltac:(unfold inByte; lia)
                         ltac:(unfold inByte; lia) Hge VB VG) as O3.
           apply IZR_le in Hge.
           unfold Exact.ltb.
           destruct (Rlt_dec G1 B1) as [Habs|_]; [lra|].
           destruct (Rlt_dec (IZR g / 255) (IZR b / 255)) as [Habs|_]; [lra|].
           rewrite Er.
           apply (hue_approx cg cb _ (IZR g / 255) (IZR b / 255)
                    (IZR mxz / 255 - IZR mnz / 255) 0);
             try assumption; try lra; try lia.
      * assert (IZR r + 1 <= IZR mxz) as Gr.
        { rewrite <- (plus_IZR r 1). apply IZR_le. unfold mxz in *. lia. }
        rewrite (approx_eq_false _ _ _ _ _ _ AMX AR)
          by (right; unfold accuracy; lra).
        assert (Exact.eqb (IZR mxz / 255) (IZR r / 255) = false) as ->.
        { unfold Exact.eqb. destruct (Req_dec_T _ _); [lra | reflexivity]. }
        destruct (Z.eq_dec g mxz) as [Eg|Ng].
        -- (* green is the maximum *)
           pose proof (chan_le r g R1 G1 ltac:(unfold inByte; lia)
                         ltac:(unfold inByte; lia) ltac:(unfold mxz in Eg; lia) VR VG) as O1.
           pose proof (chan_le b g B1 G1 ltac:(unfold inByte; lia)
                         ltac:(unfold inByte; lia) ltac:(unfold mxz in Eg; lia) VB VG) as O2.
           rewrite (val_eq _ _ _ _ VMX VG).
           replace (Rmax (Rmax R1 G1) B1) with G1
             by (rewrite (Rmax_right R1 G1) by lra; rewrite Rmax_left by lra;
                 reflexivity).
           rewrite <- Eg. rewrite !Erefl. rewrite Eg.
           apply (hue_approx cb cr _ (IZR b / 255) (IZR r / 255)
                    (IZR mxz / 255 - IZR mnz / 255) 2);
             try assumption; try lra; try lia.
        -- (* blue is the maximum *)
           assert (b = mxz) as Eb by (unfold mxz in *; lia).
           assert (IZR g + 1 <= IZR mxz) as Gg.
           { rewrite <- (plus_IZR g 1). apply IZR_le. unfold mxz in *. lia. }
           rewrite (approx_eq_false _ _ _ _ _ _ AMX AG)
             by (right; unfold accuracy; lra).
           assert (Exact.eqb (IZR mxz / 255) (IZR g / 255) = false) as ->.
           { unfold Exact.eqb. destruct (Req_dec_T _ _); [lra | reflexivity]. }
           pose proof (chan_le r b R1 B1 ltac:(unfold inByte; lia)
                         ltac:(unfold inByte; lia) ltac:(lia) VR VB) as O1.
           pose proof (chan_le g b G1 B1 ltac:(unfold inByte; lia)
                         ltac:(unfold inByte; lia) ltac:(lia) VG VB) as O2.
           rewrite (val_eq _ _ _ _ VMX VB).
           replace (Rmax (Rmax R1 G1) B1) with B1
             by (rewrite Rmax_right by (unfold Rmax; destruct (Rle_dec R1 G1); lra);
                 reflexivity).
           rewrite <- Eb. rewrite !Erefl. rewrite Eb.
           apply (hue_approx cr cg _ (IZR r / 255) (IZR g / 255)
                    (IZR mxz / 255 - IZR mnz / 255) 4);
             try assumption; try lra; try lia.
    + apply saturation_approx; try assumption; try lra.
      destruct (Z.lt_total (mxz + mnz) 255) as [Hlt|[Heq|Hgt]].
      * right. left.
        assert (IZR (mxz + mnz) <= 254) as Hs by (apply (IZR_le _ 254); lia).
        rewrite plus_IZR in Hs. lra.
      * left.
        assert (IZR (mxz + mnz) = 255) as Hs by (rewrite Heq; reflexivity).
        rewrite plus_IZR in Hs. lra.
      * right. right.
        assert (256 <= IZR (mxz + mnz)) as Hs by (apply (IZR_le 256); lia).
        rewrite plus_IZR in Hs. lra.
Qed.

(** The number that [hslToHex] renders for one channel is the channel. *)
Lemma hslChannel_accurate (h l a : N) (h0 l0 a0 : R) (n v : Z) :
  approx h h0 (/ 1000000) ->
  approx l l0 (2 / 10000000000) ->
  approx a a0 (3 / 100000000) ->
  0 <= h0 < 360 -> 0 <= l0 <= 1 -> 0 <= a0 <= 1 -> (0 <= n <= 8)%Z ->
  inByte v ->
  hslColor (N := R) h0 l0 a0 (IZR n) = IZR v / 255 ->
  hslChannel h l a (ofZ n) = JInt v.
Proof.
  intros Hh Hl Ha Rh Rl Ra Hn Hv Hexact.
  pose proof accuracy_pos as Hacc.
  pose proof (hslColor_approx h l a h0 l0 a0 n Hh Hl Ha Rh Rl Ra Hn) as Hc.
  change (l0 - a0 * hueFactor (IZR n + h0 / 30))
    with (hslColor (N := R) h0 l0 a0 (IZR n)) in Hc.
  rewrite Hexact in Hc.
  destruct Hv as [Hv0 Hv1].
  assert (0 <= IZR v <= 255) as Hv'.
  { split; [apply (IZR_le 0) | apply (IZR_le v 255)]; lia. }
  unfold hslChannel.
  apply (approx_round _ (255 * (IZR v / 255)) (/ 10000) v).
  - apply (approx_mul _ _ 255 (IZR v / 255) 0 (2 / 10000000) 255 1);
      try exact Hc; try (apply (approx_ofZ 255); lia);
      unfold accuracy; lra.
  - lia.
  - lra.
  - lra.
Qed.

(** In a Number system that rounds, [hslToHex] undoes [hexToHsl] on the
    hex string of every Color. *)
Lemma roundTrip_accurate (r g b : Z) :
  inByte r -> inByte g -> inByte b ->
  let hex := rgbToHex (JInt r) (JInt g) (JInt b) in
  let x := hexToHsl (N := N) hex in
  hslToHex (hsl_h x) (hsl_s x) (hsl_l x) = hex.
Proof.
  intros Hr Hg Hb. cbv zeta.
  rewrite hexToHsl_bytes by assumption.
  apply hslToHex_channels; try assumption. cbv zeta.
  destruct (hslOfRgb_approx r g b Hr Hg Hb) as (AH & AS & AL).
  cbv zeta in AH, AS, AL.
  pose proof (byte_unit_interval r Hr) as Ur.
  pose proof (byte_unit_interval g Hg) as Ug.
  pose proof (byte_unit_interval b Hb) as Ub.
  pose proof (hue_range (IZR r / 255) (IZR g / 255) (IZR b / 255)) as RH.
  destruct (exact_sl_range _ _ _ Ur Ug Ub) as (RS & RL).
  pose proof (hslColor_exact _ _ _ Ur Ug Ub) as Hexact.
  cbv zeta in Hexact. destruct Hexact as (Er & Eg & Eb).
  set (X := hslOfRgb (ofZ r / ofZ 255)%js (ofZ g / ofZ 255)%js
              (ofZ b / ofZ 255)%js) in *.
  set (X0 := hslOfRgb (N := R) (IZR r / 255) (IZR g / 255) (IZR b / 255)) in *.
  destruct (amplitude_approx _ _ _ _ AS AL RS RL) as (Al & Aa).
  assert (0 <= hsl_l X0 / 100 <= 1) as Rl' by lra.
  assert (0 <= hsl_s X0 / 100 * Rmin (hsl_l X0 / 100) (1 - hsl_l X0 / 100) <= 1)
    as Ra'.
  { assert (0 <= Rmin (hsl_l X0 / 100) (1 - hsl_l X0 / 100) <= 1) as Rm.
    { unfold Rmin. destruct (Rle_dec _ _); lra. }
    split; nra. }
  split; [|split].
  - apply (hslChannel_accurate _ _ _ _ _ _ 0 r AH Al Aa RH Rl' Ra');
      [lia | exact Hr | exact Er].
  - apply (hslChannel_accurate _ _ _ _ _ _ 8 g AH Al Aa RH Rl' Ra');
      [lia | exact Hg | exact Eg].
  - apply (hslChannel_accurate _ _ _ _ _ _ 4 b AH Al Aa RH Rl' Ra');
      [lia | exact Hb | exact Eb].
Qed.

End RoundTrip2.

(** Exact arithmetic is a Number system that rounds, with no error. *)
#[export] Instance exact_accurate : Accurate R.
Proof.
  refine {| val := fun x : R => Some x |}.
  - intros z _. reflexivity.
  - intros a b x y Ha Hb _. injection Ha as <-. injection Hb as <-.
    exists (a + b)%R. split; [reflexivity|]. unfold accuracy. lra.
  - intros a b x y Ha Hb _. injection Ha as <-. injection Hb as <-.
    exists (a - b)%R. split; [reflexivity|]. unfold accuracy. lra.
  - intros a b x y Ha Hb _. injection Ha as <-. injection Hb as <-.
    exists (a * b)%R. split; [reflexivity|]. unfold accuracy. lra.
  - intros a b x y Ha Hb _ _. injection Ha as <-. injection Hb as <-.
    exists (a / b)%R. split; [reflexivity|]. unfold accuracy. lra.
  - intros a x Ha _. injection Ha as <-. reflexivity.
  - intros a b x y Ha Hb. injection Ha as <-. injection Hb as <-. reflexivity.
  - intros a b x y Ha Hb. injection Ha as <-. injection Hb as <-. reflexivity.
  - intros a b x y Ha Hb. injection Ha as <-. injection Hb as <-. reflexivity.
  - intros a b x y Ha Hb. injection Ha as <-. injection Hb as <-. reflexivity.
  - intros a x Ha _. injection Ha as <-. reflexivity.
Defined.



(** The binary64 instance agrees on the 4096 Colors that have a
    three-digit form (by evaluation). *)
Lemma roundTrip_binary64_short :
  forallb (fun r => forallb (fun g => forallb (fun b => roundTripOk r g b)
                                              shortLevels) shortLevels)
          shortLevels = true.
Proof. vm_compute. reflexivity. Qed.

(** ** The scheme table (C3) *)

Lemma schemeOf_table {N : Type} `{JsNumber N} (hex kind : string) :
  In kind schemeKinds ->
  schemeOf hex kind = map (tableEntry hex (hexToHsl hex)) (schemeTable kind).
Proof.
  intros Hin. cbn in Hin.
  destruct Hin as [<-|[<-|[<-|[<-|[<-|[<-|[]]]]]]]; reflexivity.
Qed.



(** ** The binary64 instance on the examples of the specification *)

Example complementary_of_red :
  fst (generateScheme (N := float) (mkAppState [] []) "#ff0000" "complementary")
  = Normal [mkSchemeEntry "#ff0000" "Base"; mkSchemeEntry "#00ffff" "Complementary"].
Proof. vm_compute. reflexivity. Qed.

Example triadic_of_red :
  fst (generateScheme (N := float) (mkAppState [] []) "#ff0000" "triadic")
  = Normal [mkSchemeEntry "#ff0000" "Primary"; mkSchemeEntry "#00ff00" "Secondary";
            mkSchemeEntry "#0000ff" "Tertiary"].
Proof. vm_compute. reflexivity. Qed.

Example hexToHsl_of_red :
  hexToHsl (N := float) "#ff0000" = mkHSL 0%float 100%float 50%float.
Proof. vm_compute. reflexivity. Qed.

Example malformed_hex_renders_NaN :
  let x := hexToHsl (N := float) "#zz0000" in
  hslToHex (hsl_h x) (hsl_s x) (hsl_l x) = "#NaNNaNNaN".
Proof. vm_compute. reflexivity. Qed.
